(** * ab-test: prompt snapshot diff engine and scoped state substitution

    A shallow embedding of the core of [src/index.js]:
    - [computeWordDiff] / [computeLineDiff]   (positional text diff),
    - [getPromptDifferences]                  (structural snapshot diff),
    - [renderDifferences]                     (the caller that reads the diff),
    - [captureCurrentPromptState], [applyPromptState], [generateWithState]
                                              (apply / generate / restore).

    JavaScript strings are sequences of UTF-16 code units; they are modelled
    as lists of code units.  [undefined] is modelled by [None]. *)

From Stdlib Require Import String Ascii DecimalString List NArith Bool Arith Lia.
Import ListNotations.

Set Implicit Arguments.

(** ** JavaScript strings *)

Definition code_unit := N.
Definition jsstring := list code_unit.

(** An ASCII literal as a JavaScript string. *)
Definition u16 (s : string) : jsstring :=
  map N_of_ascii (list_ascii_of_string s).

Fixpoint str_eqb (a b : jsstring) : bool :=
  match a, b with
  | [], [] => true
  | x :: a', y :: b' => N.eqb x y && str_eqb a' b'
  | _, _ => false
  end.

(** [Array.prototype.push], as a value. *)
Definition push {A} (l : list A) (x : A) : list A := l ++ [x].

(** [for (let i = 0; i < n; i++) body], threading the loop state. *)
Definition for_range {S} (n : nat) (body : nat -> S -> S) (s : S) : S :=
  fold_left (fun st i => body i st) (seq 0 n) s.

(** The code units matched by the pattern class [\s] (and stripped by
    [String.prototype.trim]): WhiteSpace and LineTerminator. *)
Definition is_ws (c : code_unit) : bool :=
  ((9 <=? c) && (c <=? 13) || (c =? 32) || (c =? 160) || (c =? 5760)
   || (8192 <=? c) && (c <=? 8202) || (c =? 8232) || (c =? 8233)
   || (c =? 8239) || (c =? 8287) || (c =? 12288) || (c =? 65279))%N.

Definition nl : code_unit := 10%N.

(** [s.split(sep)] for a one-unit separator: [cur] is the piece being
    scanned.  The empty string splits into one empty piece. *)
Fixpoint split_on (sep : code_unit) (s cur : jsstring) : list jsstring :=
  match s with
  | [] => [cur]
  | c :: s' =>
      if N.eqb c sep then cur :: split_on sep s' []
      else split_on sep s' (push cur c)
  end.

Definition split_lines (s : jsstring) : list jsstring := split_on nl s [].

(** [s.split(/(\s+)/)]: the pattern matches a maximal run of whitespace and
    its capture group puts the run itself in the result, between the pieces
    it separates.  [split_word] scans a piece, [split_run] a whitespace run. *)
Fixpoint split_word (s word : jsstring) : list jsstring :=
  match s with
  | [] => [word]
  | c :: s' =>
      if is_ws c then word :: split_run s' [c]
      else split_word s' (push word c)
  end
with split_run (s run : jsstring) : list jsstring :=
  match s with
  | [] => [run; []]
  | c :: s' =>
      if is_ws c then split_run s' (push run c)
      else run :: split_word s' [c]
  end.

Definition split_ws (s : jsstring) : list jsstring := split_word s [].

(** [pieces.join(sep)] *)
Fixpoint join (sep : jsstring) (l : list jsstring) : jsstring :=
  match l with
  | [] => []
  | [x] => x
  | x :: rest => x ++ sep ++ join sep rest
  end.

(** ** Text diff unit *)

Inductive DiffTag := same | added | removed | empty | changed.

Module Word.
Record t := mk { text : option jsstring; type : DiffTag }.
End Word.

Module Line.
Record t := mk
  { text : option jsstring; type : DiffTag; wordDiff : option (list Word.t) }.
End Line.

Definition computeWordDiff (lineA lineB : jsstring)
  : list Word.t * list Word.t :=
  let wordsA := split_ws lineA in
  let wordsB := split_ws lineB in
  let maxLen := Nat.max (length wordsA) (length wordsB) in
  for_range maxLen (fun i '(diffA, diffB) =>
    let wordA := nth_error wordsA i in
    let wordB := nth_error wordsB i in
    match wordA, wordB with
    | None, _ => (diffA, push diffB (Word.mk wordB added))
    | Some _, None => (push diffA (Word.mk wordA removed), diffB)
    | Some a, Some b =>
        if str_eqb a b then
          (push diffA (Word.mk wordA same), push diffB (Word.mk wordB same))
        else
          (push diffA (Word.mk wordA removed), push diffB (Word.mk wordB added))
    end) ([], []).

Definition computeLineDiff (textA textB : jsstring)
  : list Line.t * list Line.t :=
  let linesA := split_lines textA in
  let linesB := split_lines textB in
  let maxLen := Nat.max (length linesA) (length linesB) in
  for_range maxLen (fun i '(resultA, resultB) =>
    let lineA := nth_error linesA i in
    let lineB := nth_error linesB i in
    match lineA, lineB with
    | None, _ =>
        (push resultA (Line.mk (Some []) empty None),
         push resultB (Line.mk lineB added None))
    | Some _, None =>
        (push resultA (Line.mk lineA removed None),
         push resultB (Line.mk (Some []) empty None))
    | Some a, Some b =>
        if str_eqb a b then
          (push resultA (Line.mk lineA same None),
           push resultB (Line.mk lineB same None))
        else
          (push resultA (Line.mk lineA changed (Some (fst (computeWordDiff a b)))),
           push resultB (Line.mk lineB changed (Some (snd (computeWordDiff a b)))))
    end) ([], []).

(** ** Snapshot model *)

Module Prompt.
Record t := mk
  { identifier : jsstring;
    name : jsstring;
    content : option jsstring;
    role : jsstring;
    marker : bool;
    system_prompt : bool }.
End Prompt.

(** One element [{identifier, enabled}] of an order list. *)
Module OrderItem.
Record t := mk { identifier : jsstring; enabled : bool }.
End OrderItem.

(** One entry of [promptOrder]; the code reads its list as [o.order?.], so
    the list may be missing. *)
Record OrderEntry := { order : option (list OrderItem.t) }.

Record Snapshot := mkSnapshot
  { id : option N;
    prompts : list Prompt.t;
    promptOrder : list OrderEntry;
    presetName : jsstring;
    enabledCount : nat;
    timestamp : N;
    name : jsstring }.

(** ** Structural diff unit *)

Inductive ChangeRecord :=
| Removed (identifier name : jsstring)
| Added (identifier name : jsstring)
| ContentChanged (identifier name : jsstring) (contentA contentB : option jsstring)
| EnabledChanged (identifier name : jsstring) (enabledA enabledB : option bool).

(** A JavaScript [Map] with string keys: the entries in insertion order,
    at most one per key.  [set] on a key already present keeps the key's
    position and replaces its value. *)
Module JsMap.
Definition t (V : Type) := list (jsstring * V).

Fixpoint set {V} (m : t V) (k : jsstring) (v : V) : t V :=
  match m with
  | [] => [(k, v)]
  | (k', v') :: m' =>
      if str_eqb k' k then (k', v) :: m' else (k', v') :: set m' k v
  end.

Fixpoint get {V} (m : t V) (k : jsstring) : option V :=
  match m with
  | [] => None
  | (k', v') :: m' => if str_eqb k' k then Some v' else get m' k
  end.

Definition has {V} (m : t V) (k : jsstring) : bool :=
  existsb (fun e => str_eqb (fst e) k) m.

(** [new Map(entries)] *)
Definition of_entries {V} (entries : list (jsstring * V)) : t V :=
  fold_left (fun m e => set m (fst e) (snd e)) entries [].

Definition keys {V} (m : t V) : list jsstring := map fst m.
End JsMap.

(** [a !== b] on values that are a string or [undefined]. *)
Definition content_neq (a b : option jsstring) : bool :=
  match a, b with
  | Some x, Some y => negb (str_eqb x y)
  | None, None => false
  | _, _ => true
  end.

(** [a !== b] on values that are a boolean or [undefined]. *)
Definition enabled_neq (a b : option bool) : bool :=
  match a, b with
  | Some x, Some y => negb (Bool.eqb x y)
  | None, None => false
  | _, _ => true
  end.

(** [o.order?.some(e => e.identifier === id)] *)
Definition order_some (o : OrderEntry) (id : jsstring) : bool :=
  match order o with
  | Some l => existsb (fun e => str_eqb (OrderItem.identifier e) id) l
  | None => false
  end.

(** [o?.order?.find(e => e.identifier === id)?.enabled] *)
Definition order_find_enabled (o : option OrderEntry) (id : jsstring)
  : option bool :=
  match o with
  | Some o' =>
      match order o' with
      | Some l =>
          match find (fun e => str_eqb (OrderItem.identifier e) id) l with
          | Some e => Some (OrderItem.enabled e)
          | None => None
          end
      | None => None
      end
  | None => None
  end.

(** The body of the first loop of [getPromptDifferences], for the entry
    [[id, promptA]] of [promptsA]. *)
Definition compare_entry (stateA stateB : Snapshot)
    (promptsB : JsMap.t Prompt.t) (differences : list ChangeRecord)
    (entry : jsstring * Prompt.t) : list ChangeRecord :=
  let '(id, promptA) := entry in
  match JsMap.get promptsB id with
  | None => push differences (Removed id (Prompt.name promptA))
  | Some promptB =>
      let differences :=
        if content_neq (Prompt.content promptA) (Prompt.content promptB)
        then push differences
               (ContentChanged id (Prompt.name promptA)
                  (Prompt.content promptA) (Prompt.content promptB))
        else differences in
      let orderA := find (fun o => order_some o id) (promptOrder stateA) in
      let orderB := find (fun o => order_some o id) (promptOrder stateB) in
      let enabledA := order_find_enabled orderA id in
      let enabledB := order_find_enabled orderB id in
      if enabled_neq enabledA enabledB
      then push differences
             (EnabledChanged id (Prompt.name promptA) enabledA enabledB)
      else differences
  end.

(** The body of the second loop, for the entry [[id, promptB]] of
    [promptsB]. *)
Definition add_entry (promptsA : JsMap.t Prompt.t)
    (differences : list ChangeRecord) (entry : jsstring * Prompt.t)
  : list ChangeRecord :=
  let '(id, promptB) := entry in
  if negb (JsMap.has promptsA id)
  then push differences (Added id (Prompt.name promptB))
  else differences.

(** [getPromptDifferences(stateA, stateB)]; [None] is a [null] argument. *)
Definition getPromptDifferences (stateA stateB : option Snapshot)
  : list ChangeRecord :=
  let differences := [] in
  match stateA, stateB with
  | Some stateA, Some stateB =>
      let promptsA :=
        JsMap.of_entries
          (map (fun p => (Prompt.identifier p, p)) (prompts stateA)) in
      let promptsB :=
        JsMap.of_entries
          (map (fun p => (Prompt.identifier p, p)) (prompts stateB)) in
      let differences :=
        fold_left (compare_entry stateA stateB promptsB) promptsA differences in
      let differences :=
        fold_left (add_entry promptsA) promptsB differences in
      differences
  | _, _ => differences
  end.

(** ** The caller of the diff: [renderDifferences] *)

(** An HTML literal of the source, written with ['] where the source has a
    double quote. *)
Definition html (s : string) : jsstring :=
  map (fun c => if N.eqb c 39 then 34%N else c) (u16 s).

(** [String(index)] *)
Definition decimal (n : nat) : jsstring :=
  u16 (NilZero.string_of_uint (Nat.to_uint n)).

(** What the DOM gives back as [innerHTML] for a text node. *)
Definition escape_unit (c : code_unit) : jsstring :=
  if N.eqb c 38 then u16 "&amp;"
  else if N.eqb c 60 then u16 "&lt;"
  else if N.eqb c 62 then u16 "&gt;"
  else if N.eqb c 160 then u16 "&nbsp;"
  else [c].

Definition escapeHtml (text : jsstring) : jsstring :=
  match text with
  | [] => []
  | _ => flat_map escape_unit text
  end.

(** [v || ''] *)
Definition or_empty (v : option jsstring) : jsstring :=
  match v with Some s => s | None => [] end.

(** [v ? 'ON' : 'OFF'] *)
Definition on_off (v : option bool) : jsstring :=
  match v with Some true => u16 "ON" | _ => u16 "OFF" end.

Definition no_diff_banner : jsstring :=
  html "<div class='abtest-no-diff'>No differences found</div>".

(** The callback of [differences.map] in [renderDifferences]. *)
Definition render_difference (diff : ChangeRecord) (index : nat) : jsstring :=
  let '(icon, label, detail, colorClass, clickable) :=
    match diff with
    | Removed _ name =>
        (u16 "fa-minus-circle", name, [], u16 "abtest-diff-removed", false)
    | Added _ name =>
        (u16 "fa-plus-circle", name, [], u16 "abtest-diff-added", false)
    | ContentChanged _ name contentA contentB =>
        let previewA := firstn 80 (or_empty contentA) in
        let detail :=
          html "
                    <div class='abtest-diff-preview'>
                        <span class='abtest-diff-preview-text'>"
          ++ escapeHtml previewA
          ++ (if 80 <? length (or_empty contentA) then u16 "..." else [])
          ++ html "</span>
                        <i class='fa-solid fa-expand abtest-diff-expand-icon'></i>
                    </div>
                " in
        (u16 "fa-edit", name, detail,
         u16 "abtest-diff-modified abtest-diff-clickable", true)
    | EnabledChanged _ name enabledA enabledB =>
        let colorClass :=
          match enabledB with
          | Some true => u16 "abtest-diff-added"
          | _ => u16 "abtest-diff-removed"
          end in
        let detail :=
          html "<div class='abtest-diff-detail'><span class='abtest-tag-off'>"
          ++ on_off enabledA
          ++ html "</span> " ++ [226; 8224; 8217]%N
          ++ html " <span class='abtest-tag-on'>"
          ++ on_off enabledB
          ++ html "</span></div>" in
        (u16 "fa-toggle-on", name, detail, colorClass, false)
    end in
  let dataAttr :=
    if clickable : bool
    then html "data-diff-index='" ++ decimal index ++ html "'"
    else [] in
  html "
            <div class='abtest-diff-item " ++ colorClass ++ html "' "
  ++ dataAttr ++ html ">
                <div class='abtest-diff-header'>
                    <i class='fa-solid " ++ icon ++ html "'></i>
                    <span class='abtest-diff-name'>" ++ escapeHtml label
  ++ html "</span>
                    "
  ++ (if clickable
      then html "<span class='abtest-diff-hint'>Click to compare</span>"
      else [])
  ++ html "
                </div>
                " ++ detail ++ html "
            </div>
        ".

(** [array.map((x, index) => f(x, index))] *)
Fixpoint map_indexed {A B} (f : A -> nat -> B) (l : list A) (index : nat)
  : list B :=
  match l with
  | [] => []
  | x :: rest => f x index :: map_indexed f rest (S index)
  end.

Definition renderDifferences (differences : list ChangeRecord) : jsstring :=
  if length differences =? 0 then no_diff_banner
  else join [] (map_indexed render_difference differences 0).

(** ** Live state and host collaborators *)

(** [promptManager.serviceSettings], as far as this code reads and writes it. *)
Module Settings.
Record t := mk { prompts : list Prompt.t; prompt_order : list OrderEntry }.
End Settings.

(** One entry of [context.chat]. *)
Module ChatMessage.
Record t := mk
  { name : jsstring; is_user : bool; mes : jsstring; send_date : N }.
End ChatMessage.

(** A thrown or rejected value: [null] or [undefined], or any other value
    with what its [message] property holds (a string for an [Error]
    object, [undefined] for a value that has none). *)
Inductive Error :=
| Nullish
| Value (message : option jsstring).

(** [`${v}`] for a value that is a string or [undefined]. *)
Definition template_text (v : option jsstring) : jsstring :=
  match v with Some s => s | None => u16 "undefined" end.

(** [`Error: ${error.message}`]; reading a property of [null] or
    [undefined] throws, which [None] stands for. *)
Definition error_string (error : Error) : option jsstring :=
  match error with
  | Nullish => None
  | Value message => Some (u16 "Error: " ++ template_text message)
  end.

(** The mutable state [generateWithState] works on.  [serviceSettings] is
    [None] when [promptManager] or its [serviceSettings] is missing;
    [streaming] is the text of the [.abtest-streaming] element inside
    [outputElement], [None] while there is no such element; [ext] is
    whatever else the host keeps (clock, DOM, preset settings). *)
Record World (E : Type) := mkWorld
  { serviceSettings : option Settings.t;
    chat : list ChatMessage.t;
    streaming : option jsstring;
    ext : E }.

(** What one call of [context.generate('quiet', {..., callback})] does:
    it calls [callback] with each of [partial_texts], then resolves with a
    value ([inr]) or rejects ([inl]).  While the caller is suspended the
    transcript and the prompt lists may have been rewritten. *)
Record Generation (E : Type) := mkGeneration
  { partial_texts : list jsstring;
    settled : Error + option jsstring;
    chat_after : list ChatMessage.t;
    settings_after : Settings.t;
    ext_after : E }.

(** The collaborators the code calls into.  [render] is
    [promptManager.render(false)]; it returns the error it throws, if any.
    [nullish_property_error] is the [TypeError] the engine throws when a
    property of [null] or [undefined] is read. *)
Record Host (E : Type) := mkHost
  { render : Settings.t -> E -> option Error * E;
    generate : option Settings.t -> list ChatMessage.t -> E -> Generation E;
    now : E -> N;
    toLocaleString : E -> jsstring;
    name1 : E -> jsstring;
    preset_settings_openai : E -> option jsstring;
    nullish_property_error : Error }.

(** Completion of a JavaScript computation: a value, or a thrown error. *)
Inductive Completion (A : Type) :=
| Normal (a : A)
| Thrown (e : Error).
Arguments Thrown {A} e.

(** Computations over the live state; the state survives a throw. *)
Definition M (E A : Type) := World E -> Completion A * World E.

Definition ret {E A} (a : A) : M E A := fun w => (Normal a, w).

Definition bind {E A B} (m : M E A) (k : A -> M E B) : M E B :=
  fun w =>
    match m w with
    | (Normal a, w') => k a w'
    | (Thrown e, w') => (Thrown e, w')
    end.

Declare Scope js_scope.
Delimit Scope js_scope with js.
Notation "x <- m ;; k" := (bind m (fun x => k))
  (at level 61, m at next level, right associativity) : js_scope.
Notation "m ;; k" := (bind m (fun _ => k))
  (at level 61, right associativity) : js_scope.

Definition gets {E A} (f : World E -> A) : M E A := fun w => (Normal (f w), w).
Definition modify {E} (f : World E -> World E) : M E unit :=
  fun w => (Normal tt, f w).

(** [try { body } catch (error) { handler } finally { cleanup }]: the
    cleanup runs on every path; a throw from the cleanup replaces the
    completion of the try or catch block. *)
Definition try_catch_finally {E A} (body : M E A) (handler : Error -> M E A)
    (cleanup : M E unit) : M E A :=
  fun w =>
    let '(c, w1) :=
      match body w with
      | (Normal a, w') => (Normal a, w')
      | (Thrown e, w') => handler e w'
      end in
    match cleanup w1 with
    | (Normal _, w2) => (c, w2)
    | (Thrown e, w2) => (Thrown e, w2)
    end.

(** [s.trim()] *)
Fixpoint trim_start (s : jsstring) : jsstring :=
  match s with
  | c :: s' => if is_ws c then trim_start s' else s
  | [] => []
  end.

Definition trim (s : jsstring) : jsstring :=
  rev (trim_start (rev (trim_start s))).

(** Truthiness of a string. *)
Definition truthy (s : jsstring) : bool :=
  match s with [] => false | _ => true end.

Section Controller.
Context {E : Type} (host : Host E).
Local Open Scope js_scope.

(** [order.order?.filter(o => o.enabled &&
      !prompts.find(p => p.identifier === o.identifier)?.marker)?.length || 0] *)
Definition enabled_in_order (prompts : list Prompt.t) (o : OrderEntry) : nat :=
  match order o with
  | Some l =>
      length
        (filter
           (fun e =>
              OrderItem.enabled e
              && negb
                   match find (fun p => str_eqb (Prompt.identifier p)
                                          (OrderItem.identifier e)) prompts with
                   | Some p => Prompt.marker p
                   | None => false
                   end) l)
  | None => 0
  end.

Definition captureCurrentPromptState : M E (option Snapshot) :=
  fun w =>
    match serviceSettings w with
    | None => (Normal None, w)
    | Some settings =>
        let prompts := Settings.prompts settings in
        let promptOrder := Settings.prompt_order settings in
        let presetName :=
          match preset_settings_openai host (ext w) with
          | Some p => if truthy p then p else u16 "Unknown Preset"
          | None => u16 "Unknown Preset"
          end in
        let enabledCount :=
          fold_left (fun count o => count + enabled_in_order prompts o)
            promptOrder 0 in
        (Normal
           (Some
              {| id := None;
                 prompts := prompts;
                 promptOrder := promptOrder;
                 presetName := presetName;
                 enabledCount := enabledCount;
                 timestamp := now host (ext w);
                 name := u16 "[" ++ presetName ++ u16 "] "
                         ++ toLocaleString host (ext w) |}), w)
    end.

Definition applyPromptState (state : option Snapshot) : M E bool :=
  fun w =>
    match serviceSettings w, state with
    | Some _, Some state =>
        let settings :=
          Settings.mk (prompts state) (promptOrder state) in
        let '(thrown, ext') := render host settings (ext w) in
        let w' := mkWorld (Some settings) (chat w) (streaming w) ext' in
        match thrown with
        | Some e => (Thrown e, w')
        | None => (Normal true, w')
        end
    | _, _ => (Normal false, w)
    end.

(** The callback handed to [generate]: [fullText = text] and, when the
    streaming element exists, [streamingDiv.textContent = text]. *)
Definition callback (st : jsstring * option jsstring) (text : jsstring)
  : jsstring * option jsstring :=
  let '(_, streamingDiv) := st in
  (text, match streamingDiv with Some _ => Some text | None => None end).

(** [await context.generate('quiet', {skipWIAN: false, force_name2: true,
    callback})], started with [fullText = '']; returns [fullText] as the
    callback left it together with the resolved value. *)
Definition await_generate : M E (jsstring * option jsstring) :=
  fun w =>
    let g := generate host (serviceSettings w) (chat w) (ext w) in
    let '(fullText, streamingDiv) :=
      fold_left callback (partial_texts g) ([], streaming w) in
    let w' :=
      mkWorld
        (match serviceSettings w with
         | Some _ => Some (settings_after g)
         | None => None
         end)
        (chat_after g) streamingDiv (ext_after g) in
    match settled g with
    | inl e => (Thrown e, w')
    | inr result => (Normal (fullText, result), w')
    end.

(** The [try] block of [generateWithState]. *)
Definition try_block (state : option Snapshot)
    (testMessage : option jsstring) : M E jsstring :=
  applyPromptState state ;;
  (match testMessage with
   | Some m =>
       if truthy m && truthy (trim m)
       then modify (fun w =>
              mkWorld (serviceSettings w)
                (push (chat w)
                   (ChatMessage.mk (name1 host (ext w)) true (trim m)
                      (now host (ext w))))
                (streaming w) (ext w))
       else ret tt
   | None => ret tt
   end) ;;
  modify (fun w => mkWorld (serviceSettings w) (chat w) (Some []) (ext w)) ;;
  r <- await_generate ;;
  let fullText :=
    match snd r with
    | Some result => if truthy result then result else fst r
    | None => fst r
    end in
  modify (fun w =>
    mkWorld (serviceSettings w) (chat w)
      (match streaming w with Some _ => Some fullText | None => None end)
      (ext w)) ;;
  ret fullText.

(** The [catch (error)] block: it returns [`Error: ${error.message}`], and
    throws itself when [error] is [null] or [undefined]. *)
Definition catch_block (error : Error) : M E jsstring :=
  match error_string error with
  | Some text => ret text
  | None => fun w => (Thrown (nullish_property_error host), w)
  end.

(** The [finally] block: [context.chat.length = 0;
    context.chat.push(...originalChat)], then the guarded
    [applyPromptState(originalState)]. *)
Definition finally_block (originalState : option Snapshot)
    (originalChat : list ChatMessage.t) : M E unit :=
  modify (fun w =>
    mkWorld (serviceSettings w) originalChat (streaming w) (ext w)) ;;
  match originalState with
  | Some _ => applyPromptState originalState ;; ret tt
  | None => ret tt
  end.

Definition generateWithState (state : option Snapshot)
    (testMessage : option jsstring) : M E jsstring :=
  originalState <- captureCurrentPromptState ;;
  originalChat <- gets (@chat E) ;;
  try_catch_finally
    (try_block state testMessage)
    catch_block
    (finally_block originalState originalChat).
End Controller.

(** ** Specification-side definitions *)

Definition no_ws (s : jsstring) : Prop := forall c, In c s -> is_ws c = false.
Definition all_ws (s : jsstring) : Prop := forall c, In c s -> is_ws c = true.

(** What may follow a piece in a whitespace-preserving split: nothing, or a
    non-empty whitespace run and then either the final (possibly empty)
    piece or a non-empty piece and more of the same. *)
Inductive tail_tokens : list jsstring -> Prop :=
| tt_end : tail_tokens []
| tt_last r : r <> [] -> all_ws r -> tail_tokens [r; []]
| tt_more r w rest :
    r <> [] -> all_ws r -> w <> [] -> no_ws w -> tail_tokens rest ->
    tail_tokens (r :: w :: rest).

(** A whitespace-preserving split: pieces without whitespace at the even
    positions, maximal whitespace runs at the odd ones. *)
Definition ws_tokens (l : list jsstring) : Prop :=
  exists w rest, l = w :: rest /\ no_ws w /\ tail_tokens rest.

(** The word record at position [i] of each side, as the positional
    comparison of the token lists defines it. *)
Definition word_tag (other : DiffTag) (x y : option jsstring) : DiffTag :=
  match x, y with
  | Some a, Some b => if str_eqb a b then same else other
  | _, _ => other
  end.

Definition word_at_A (wordsA wordsB : list jsstring) (i : nat) : Word.t :=
  Word.mk (nth_error wordsA i)
    (word_tag removed (nth_error wordsA i) (nth_error wordsB i)).

Definition word_at_B (wordsA wordsB : list jsstring) (i : nat) : Word.t :=
  Word.mk (nth_error wordsB i)
    (word_tag added (nth_error wordsA i) (nth_error wordsB i)).

(** [records.map(r => r.text).join('')]; [join] prints [undefined] as the
    empty string. *)
Definition joined_text (records : list Word.t) : jsstring :=
  concat (map (fun r => or_empty (Word.text r)) records).

(** The line record at position [i] of each side, by position only. *)
Definition line_at_A (linesA linesB : list jsstring) (i : nat) : Line.t :=
  match nth_error linesA i, nth_error linesB i with
  | None, _ => Line.mk (Some []) empty None
  | Some a, None => Line.mk (Some a) removed None
  | Some a, Some b =>
      if str_eqb a b then Line.mk (Some a) same None
      else Line.mk (Some a) changed (Some (fst (computeWordDiff a b)))
  end.

Definition line_at_B (linesA linesB : list jsstring) (i : nat) : Line.t :=
  match nth_error linesA i, nth_error linesB i with
  | None, lineB => Line.mk lineB added None
  | Some a, None => Line.mk (Some []) empty None
  | Some a, Some b =>
      if str_eqb a b then Line.mk (Some b) same None
      else Line.mk (Some b) changed (Some (snd (computeWordDiff a b)))
  end.

(** The order in which a [Map] built from a list of keys iterates: each key
    at the place of its first occurrence. *)
Fixpoint first_occurrences (l : list jsstring) : list jsstring :=
  match l with
  | [] => []
  | k :: l' => k :: filter (fun k' => negb (str_eqb k' k)) (first_occurrences l')
  end.

(** [entry.identifier], [entry.type === 'added'] of a change record. *)
Definition record_identifier (r : ChangeRecord) : jsstring :=
  match r with
  | Removed i _ | Added i _ | ContentChanged i _ _ _ | EnabledChanged i _ _ _ => i
  end.

Definition is_added (r : ChangeRecord) : bool :=
  match r with Added _ _ => true | _ => false end.

(** The identifier-indexed maps that [getPromptDifferences] builds. *)
Definition prompt_map (s : Snapshot) : JsMap.t Prompt.t :=
  JsMap.of_entries (map (fun p => (Prompt.identifier p, p)) (prompts s)).

(** The enabled flag of identifier [k], in the words of the specification:
    scan the order entries for the first one whose list contains [k] and
    take the flag of [k] there; [undefined] when no list contains [k]. *)
Definition order_contains (o : OrderEntry) (k : jsstring) : Prop :=
  exists l, order o = Some l /\ In k (map OrderItem.identifier l).

Inductive first_item (k : jsstring) : list OrderItem.t -> OrderItem.t -> Prop :=
| fi_here e l : OrderItem.identifier e = k -> first_item k (e :: l) e
| fi_later e' l e :
    OrderItem.identifier e' <> k -> first_item k l e -> first_item k (e' :: l) e.

Inductive resolves_enabled (k : jsstring) : list OrderEntry -> option bool -> Prop :=
| re_none : resolves_enabled k [] None
| re_here o os l e :
    order o = Some l -> first_item k l e ->
    resolves_enabled k (o :: os) (Some (OrderItem.enabled e))
| re_skip o os v :
    ~ order_contains o k -> resolves_enabled k os v ->
    resolves_enabled k (o :: os) v.

(** The flag the loop body computes as [enabledA] / [enabledB]. *)
Definition resolve_enabled (s : Snapshot) (id : jsstring) : option bool :=
  order_find_enabled (find (fun o => order_some o id) (promptOrder s)) id.

(** A host whose [render] always throws, one whose collaborators all
    succeed, and a small live state, for concrete runs. *)
Definition render_error : Error := Value (Some (u16 "render failed")).

Definition type_error : Error :=
  Value (Some (u16 "Cannot read properties of undefined (reading 'message')")).

Definition quiet_generation : Generation unit :=
  mkGeneration [u16 "par"] (inr (Some (u16 "reply"))) [] (Settings.mk [] []) tt.

Definition failing_host : Host unit :=
  mkHost (fun _ e => (Some render_error, e))
         (fun _ _ _ => quiet_generation)
         (fun _ => 0%N) (fun _ => []) (fun _ => u16 "User") (fun _ => None)
         type_error.

Definition working_host : Host unit :=
  mkHost (fun _ e => (None, e))
         (fun _ _ _ => quiet_generation)
         (fun _ => 0%N) (fun _ => []) (fun _ => u16 "User") (fun _ => None)
         type_error.

Definition sample_prompt (i : string) (c : string) : Prompt.t :=
  Prompt.mk (u16 i) (u16 i) (Some (u16 c)) (u16 "system") false false.

Definition sample_snapshot (ps : list Prompt.t) (os : list OrderEntry)
  : Snapshot :=
  mkSnapshot None ps os (u16 "Default") 0 0%N (u16 "snapshot").

Definition sample_world : World unit :=
  mkWorld (Some (Settings.mk [sample_prompt "p1" "Hello"] []))
    [ChatMessage.mk (u16 "User") true (u16 "hi") 0%N] None tt.

(** Two snapshots over the same identifier: the content and the enabled
    flag of ["p1"] both differ, ["p2"] is in the first only. *)
Definition snapshot_one : Snapshot :=
  sample_snapshot [sample_prompt "p1" "Hello"; sample_prompt "p2" "Bye"]
    [{| order := Some [OrderItem.mk (u16 "p1") true] |}].

Definition snapshot_two : Snapshot :=
  sample_snapshot [sample_prompt "p1" "Hi"]
    [{| order := None |}; {| order := Some [OrderItem.mk (u16 "p1") false] |}].

(** A host whose [render] throws on its first call only (the hidden state
    counts the calls), and one whose generation rejects. *)
Definition flaky_host : Host nat :=
  mkHost (fun _ calls =>
            (match calls with 0 => Some render_error | _ => None end, S calls))
         (fun _ ch calls =>
            mkGeneration [] (inr None) ch (Settings.mk [] []) calls)
         (fun _ => 0%N) (fun _ => []) (fun _ => u16 "User") (fun _ => None)
         type_error.

Definition rejecting_host : Host unit :=
  mkHost (fun _ e => (None, e))
         (fun _ _ _ =>
            mkGeneration [u16 "par"] (inl (Value (Some (u16 "timeout"))))
              [] (Settings.mk [] []) tt)
         (fun _ => 0%N) (fun _ => []) (fun _ => u16 "User") (fun _ => None)
         type_error.

(** ** Further definitions: comparison view, prompt viewer, slots *)

(** Exchanging the two sides of a diff tag. *)
Definition flip_tag (t : DiffTag) : DiffTag :=
  match t with
  | added => removed
  | removed => added
  | other => other
  end.

Definition flip_word (r : Word.t) : Word.t :=
  Word.mk (Word.text r) (flip_tag (Word.type r)).

Definition flip_line (r : Line.t) : Line.t :=
  Line.mk (Line.text r) (flip_tag (Line.type r))
    (option_map (map flip_word) (Line.wordDiff r)).

Definition is_same (t : DiffTag) : bool :=
  match t with same => true | _ => false end.

Definition is_empty (t : DiffTag) : bool :=
  match t with empty => true | _ => false end.

(** The texts of the records that are not [empty] placeholders. *)
Definition line_texts (records : list Line.t) : list jsstring :=
  map (fun r => or_empty (Line.text r))
    (filter (fun r => negb (is_empty (Line.type r))) records).

(** [v || '(empty)'] *)
Definition or_placeholder (v : option jsstring) : jsstring :=
  match v with
  | Some s => if truthy s then s else u16 "(empty)"
  | None => u16 "(empty)"
  end.

(** The two line sequences [showDiffCompareModal] renders for a record with
    the given [contentA] and [contentB]. *)
Definition compare_view (contentA contentB : option jsstring)
  : list Line.t * list Line.t :=
  let contentA := or_placeholder contentA in
  let contentB := or_placeholder contentB in
  computeLineDiff contentA contentB.

(** One element of [activePrompts] in [showPromptViewer]:
    [{...prompt, enabled: item.enabled}]. *)
Module ActivePrompt.
Record t := mk { prompt : Prompt.t; enabled : bool }.
End ActivePrompt.

(** The two nested loops of [showPromptViewer] that collect
    [activePrompts]. *)
Definition activePrompts (snapshot : Snapshot) : list ActivePrompt.t :=
  fold_left
    (fun activePrompts orderEntry =>
       match order orderEntry with
       | None => activePrompts
       | Some items =>
           fold_left
             (fun activePrompts item =>
                match find (fun p => str_eqb (Prompt.identifier p)
                                       (OrderItem.identifier item))
                        (prompts snapshot) with
                | Some prompt =>
                    if negb (Prompt.marker prompt)
                    then push activePrompts
                           (ActivePrompt.mk prompt (OrderItem.enabled item))
                    else activePrompts
                | None => activePrompts
                end)
             items activePrompts
       end)
    (promptOrder snapshot) [].

(** What one order item contributes to [activePrompts]. *)
Definition item_active (snapshot : Snapshot) (item : OrderItem.t)
  : list ActivePrompt.t :=
  match find (fun p => str_eqb (Prompt.identifier p) (OrderItem.identifier item))
          (prompts snapshot) with
  | Some prompt =>
      if negb (Prompt.marker prompt)
      then [ActivePrompt.mk prompt (OrderItem.enabled item)]
      else []
  | None => []
  end.

(** All the order items of a snapshot, list after list. *)
Definition order_items (snapshot : Snapshot) : list OrderItem.t :=
  flat_map (fun o => match order o with Some l => l | None => [] end)
    (promptOrder snapshot).

(** The test [captureCurrentPromptState] applies to an order item when it
    counts the enabled ones:
    [o.enabled && !prompts.find(p => p.identifier === o.identifier)?.marker]. *)
Definition counted_enabled (prompts : list Prompt.t) (item : OrderItem.t)
  : bool :=
  OrderItem.enabled item
  && negb
       match find (fun p => str_eqb (Prompt.identifier p)
                              (OrderItem.identifier item)) prompts with
       | Some p => Prompt.marker p
       | None => false
       end.

(** A live state whose order list names a prompt twice (enabled, then
    disabled), a marker and an identifier that matches no prompt; and the
    snapshot captured from it. *)
Definition viewer_world : World unit :=
  mkWorld
    (Some (Settings.mk
             [sample_prompt "p1" "Hello";
              Prompt.mk (u16 "m") (u16 "m") None (u16 "system") true false]
             [{| order := Some [OrderItem.mk (u16 "p1") true;
                                OrderItem.mk (u16 "m") true;
                                OrderItem.mk (u16 "ghost") true;
                                OrderItem.mk (u16 "p1") false] |}]))
    [] None tt.

Definition viewer_snapshot : Snapshot :=
  match fst (captureCurrentPromptState working_host viewer_world) with
  | Normal (Some snap) => snap
  | _ => sample_snapshot [] []
  end.

(** The module-level selection: [selectedSlotA], [selectedSlotB]. *)
Record Slots := mkSlots
  { selectedSlotA : option Snapshot; selectedSlotB : option Snapshot }.

(** [s.id === id] for a stored id ([undefined] when the snapshot was never
    stored) and the result of [parseInt] ([None] for [NaN]). *)
Definition id_matches (stored parsed : option N) : bool :=
  match stored, parsed with
  | Some a, Some b => N.eqb a b
  | _, _ => false
  end.

(** The selection branch of the click handler on the snapshots list: look
    the snapshot up by id, then fill slot A when A is empty or both slots
    are taken (clearing B), and slot B otherwise. *)
Definition select_snapshot (currentSnapshots : list Snapshot)
    (parsed : option N) (slots : Slots) : Slots :=
  match find (fun s => id_matches (id s) parsed) currentSnapshots with
  | None => slots
  | Some snapshot =>
      match selectedSlotA slots, selectedSlotB slots with
      | Some _, None => mkSlots (selectedSlotA slots) (Some snapshot)
      | _, _ => mkSlots (Some snapshot) None
      end
  end.

(** [currentDifferences] after [updateDiffDisplay]; [dom_ready] says that
    both elements the function looks up exist (it returns at once
    otherwise). *)
Definition updateDiffDisplay (dom_ready : bool) (slots : Slots)
    (currentDifferences : list ChangeRecord) : list ChangeRecord :=
  if negb dom_ready then currentDifferences
  else
    match selectedSlotA slots, selectedSlotB slots with
    | Some a, Some b => getPromptDifferences (Some a) (Some b)
    | _, _ => []
    end.
(** The completion of the [try] block once its [catch] has run: a thrown
    value is turned into its error string, and a thrown [null] or
    [undefined] into the engine's [TypeError]. *)
Definition caught {E} (host : Host E) (c : Completion jsstring)
  : Completion jsstring :=
  match c with
  | Normal text => Normal text
  | Thrown e =>
      match error_string e with
      | Some text => Normal text
      | None => Thrown (nullish_property_error host)
      end
  end.

(** A host whose generation rejects with [undefined]. *)
Definition nullish_host : Host unit :=
  mkHost (fun _ e => (None, e))
         (fun _ ch _ => mkGeneration [] (inl Nullish) ch (Settings.mk [] []) tt)
         (fun _ => 0%N) (fun _ => []) (fun _ => u16 "User") (fun _ => None)
         type_error.

(** A prompt renamed and rewritten between two snapshots. *)
Definition snapshot_old_name : Snapshot :=
  sample_snapshot
    [Prompt.mk (u16 "k") (u16 "old") (Some (u16 "x")) [] false false]
    [{| order := Some [OrderItem.mk (u16 "k") true] |}].

Definition snapshot_new_name : Snapshot :=
  sample_snapshot
    [Prompt.mk (u16 "k") (u16 "new") (Some (u16 "y")) [] false false]
    [{| order := Some [OrderItem.mk (u16 "k") false] |}].

(** * Properties *)

Unset Implicit Arguments.

(** ** Strings and loops *)

Lemma str_eqb_eq (a b : jsstring) : str_eqb a b = true <-> a = b.
Proof.
  revert b; induction a as [|x a IH]; intros [|y b]; simpl;
    try (split; [discriminate | discriminate]); [tauto|].
  rewrite andb_true_iff, N.eqb_eq, IH.
  split; [intros [-> ->]; reflexivity | intros H; inversion H; auto].
Qed.

Lemma str_eqb_refl (a : jsstring) : str_eqb a a = true.
Proof. apply str_eqb_eq; reflexivity. Qed.

Lemma str_eqb_neq (a b : jsstring) : str_eqb a b = false <-> a <> b.
Proof.
  rewrite <- str_eqb_eq. destruct (str_eqb a b); split; congruence.
Qed.

Lemma for_range_S {S} n (body : nat -> S -> S) s :
  for_range (Datatypes.S n) body s = body n (for_range n body s).
Proof.
  unfold for_range. rewrite seq_S, fold_left_app. reflexivity.
Qed.

(** Loop invariant rule for [for_range]. *)
Lemma for_range_inv {S} (P : nat -> S -> Prop) n (body : nat -> S -> S) s :
  P 0 s ->
  (forall i st, i < n -> P i st -> P (Datatypes.S i) (body i st)) ->
  P n (for_range n body s).
Proof.
  intros H0 Hstep.
  assert (forall k, k <= n -> P k (for_range k body s)) as H.
  { induction k as [|k IH]; intros Hk; [exact H0|].
    rewrite for_range_S. apply Hstep; [lia | apply IH; lia]. }
  apply H; lia.
Qed.

Lemma nth_error_Some_lt {A} (l : list A) i x :
  nth_error l i = Some x -> i < length l.
Proof. intros H. apply nth_error_Some. congruence. Qed.

Lemma nth_error_seq_map {A} (l : list A) :
  map (nth_error l) (seq 0 (length l)) = map Some l.
Proof.
  induction l as [|x l IH] using rev_ind; [reflexivity|].
  rewrite length_app, Nat.add_1_r, seq_S, !map_app. simpl.
  rewrite nth_error_app2, Nat.sub_diag by lia. simpl. f_equal.
  rewrite <- IH. apply map_ext_in. intros i Hi%in_seq.
  apply nth_error_app1; lia.
Qed.

(** ** Splitting *)

Lemma split_on_length sep s cur : 1 <= length (split_on sep s cur).
Proof.
  revert cur; induction s as [|c s IH]; intros cur; simpl; [lia|].
  destruct (N.eqb c sep); simpl; [lia | apply IH].
Qed.

Lemma split_on_join sep s cur :
  join [sep] (split_on sep s cur) = cur ++ s.
Proof.
  revert cur; induction s as [|c s IH]; intros cur; simpl.
  - now rewrite app_nil_r.
  - destruct (N.eqb_spec c sep) as [->|_].
    + specialize (IH []). simpl in *.
      destruct (split_on sep s []) eqn:Hs.
      * pose proof (split_on_length sep s []) as Hl.
        rewrite Hs in Hl. simpl in Hl. lia.
      * rewrite IH. reflexivity.
    + rewrite IH. unfold push. now rewrite <- app_assoc.
Qed.

Lemma split_on_no_sep sep s cur :
  ~ In sep cur -> Forall (fun piece => ~ In sep piece) (split_on sep s cur).
Proof.
  revert cur; induction s as [|c s IH]; intros cur Hcur; simpl.
  - constructor; auto.
  - destruct (N.eqb_spec c sep) as [->|Hne].
    + constructor; auto.
    + apply IH. unfold push. rewrite in_app_iff. simpl. intuition.
Qed.

Lemma split_on_trailing sep s cur :
  split_on sep (s ++ [sep]) cur = split_on sep s cur ++ [[]].
Proof.
  revert cur; induction s as [|c s IH]; intros cur; simpl.
  - now rewrite N.eqb_refl.
  - destruct (N.eqb c sep); [now rewrite IH | apply IH].
Qed.

Lemma split_word_run_concat s :
  (forall word, concat (split_word s word) = word ++ s) /\
  (forall run, concat (split_run s run) = run ++ s).
Proof.
  induction s as [|c s [IHw IHr]]; split; intros acc; simpl.
  - now rewrite !app_nil_r.
  - now rewrite !app_nil_r.
  - destruct (is_ws c); simpl.
    + now rewrite IHr.
    + rewrite IHw. unfold push. now rewrite <- app_assoc.
  - destruct (is_ws c); simpl.
    + rewrite IHr. unfold push. now rewrite <- app_assoc.
    + now rewrite IHw.
Qed.

Lemma split_ws_concat s : concat (split_ws s) = s.
Proof. apply (proj1 (split_word_run_concat s)). Qed.

Lemma no_ws_push w c : no_ws w -> is_ws c = false -> no_ws (push w c).
Proof.
  intros Hw Hc x. unfold push. rewrite in_app_iff. simpl.
  intros [H|[<-|[]]]; auto.
Qed.

Lemma all_ws_push r c : all_ws r -> is_ws c = true -> all_ws (push r c).
Proof.
  intros Hr Hc x. unfold push. rewrite in_app_iff. simpl.
  intros [H|[<-|[]]]; auto.
Qed.

Lemma push_not_nil {A} (l : list A) x : push l x <> [].
Proof. unfold push. destruct l; discriminate. Qed.

Lemma split_word_run_tokens s :
  (forall word, no_ws word ->
     exists w rest, split_word s word = w :: rest /\ no_ws w
                    /\ (word <> [] -> w <> []) /\ tail_tokens rest) /\
  (forall run, run <> [] -> all_ws run -> tail_tokens (split_run s run)).
Proof.
  induction s as [|c s [IHw IHr]]; split.
  - intros word Hw. exists word, []. simpl. repeat split; auto. constructor.
  - intros run Hne Hr. simpl. now constructor.
  - intros word Hw. simpl. destruct (is_ws c) eqn:Hc.
    + exists word, (split_run s [c]). repeat split; auto.
      apply IHr; [discriminate|]. intros x [<-|[]]; exact Hc.
    + destruct (IHw (push word c) (no_ws_push _ _ Hw Hc)) as (w & rest & -> & Hn & Hne & Ht).
      exists w, rest. repeat split; auto.
      intros _. apply Hne, push_not_nil.
  - intros run Hne Hr. simpl. destruct (is_ws c) eqn:Hc.
    + apply IHr; [apply push_not_nil | now apply all_ws_push].
    + destruct (IHw [c]) as (w & rest & -> & Hn & Hne' & Ht).
      { intros x [<-|[]]; exact Hc. }
      constructor; auto. apply Hne'. discriminate.
Qed.

Lemma split_ws_tokens s : ws_tokens (split_ws s).
Proof.
  destruct (proj1 (split_word_run_tokens s) []) as (w & rest & H & Hn & _ & Ht).
  { intros c []. }
  exists w, rest. auto.
Qed.

(** ** Word diff *)

Lemma computeWordDiff_sides lineA lineB :
  computeWordDiff lineA lineB =
    (map (word_at_A (split_ws lineA) (split_ws lineB))
         (seq 0 (length (split_ws lineA))),
     map (word_at_B (split_ws lineA) (split_ws lineB))
         (seq 0 (length (split_ws lineB)))).
Proof.
  unfold computeWordDiff.
  set (wordsA := split_ws lineA). set (wordsB := split_ws lineB).
  match goal with |- for_range ?n ?b ?s = _ =>
    pose proof (@for_range_inv _
      (fun k st => k <= n ->
         st = (map (word_at_A wordsA wordsB) (seq 0 (Nat.min k (length wordsA))),
               map (word_at_B wordsA wordsB) (seq 0 (Nat.min k (length wordsB)))))
      n b s) as Hinv
  end.
  cbv beta in Hinv.
  rewrite Hinv; [ | reflexivity | | lia ].
  - f_equal; f_equal; f_equal; lia.
  - clear Hinv. intros i [diffA diffB] Hi IH Hle.
    specialize (IH ltac:(lia)). injection IH as -> ->.
    unfold word_at_A, word_at_B, word_tag, push.
    destruct (nth_error wordsA i) as [a|] eqn:HA;
      destruct (nth_error wordsB i) as [b|] eqn:HB.
    + apply nth_error_Some_lt in HA as HA'. apply nth_error_Some_lt in HB as HB'.
      replace (Nat.min (S i) (length wordsA)) with (S (Nat.min i (length wordsA))) by lia.
      replace (Nat.min (S i) (length wordsB)) with (S (Nat.min i (length wordsB))) by lia.
      rewrite !seq_S, !map_app. simpl.
      replace (Nat.min i (length wordsA)) with i by lia.
      replace (Nat.min i (length wordsB)) with i by lia.
      rewrite HA, HB. destruct (str_eqb a b); reflexivity.
    + apply nth_error_Some_lt in HA as HA'. apply nth_error_None in HB as HB'.
      replace (Nat.min (S i) (length wordsA)) with (S (Nat.min i (length wordsA))) by lia.
      replace (Nat.min (S i) (length wordsB)) with (Nat.min i (length wordsB)) by lia.
      rewrite seq_S, map_app. simpl.
      replace (Nat.min i (length wordsA)) with i by lia.
      rewrite HA, HB. reflexivity.
    + apply nth_error_None in HA as HA'. apply nth_error_Some_lt in HB as HB'.
      replace (Nat.min (S i) (length wordsB)) with (S (Nat.min i (length wordsB))) by lia.
      replace (Nat.min (S i) (length wordsA)) with (Nat.min i (length wordsA)) by lia.
      rewrite seq_S, map_app. simpl.
      replace (Nat.min i (length wordsB)) with i by lia.
      rewrite HA, HB. reflexivity.
    + apply nth_error_None in HA. apply nth_error_None in HB. lia.
Qed.

Lemma word_at_A_text wordsA wordsB :
  map Word.text (map (word_at_A wordsA wordsB) (seq 0 (length wordsA)))
  = map Some wordsA.
Proof.
  rewrite map_map. unfold word_at_A. simpl. apply nth_error_seq_map.
Qed.

Lemma word_at_B_text wordsA wordsB :
  map Word.text (map (word_at_B wordsA wordsB) (seq 0 (length wordsB)))
  = map Some wordsB.
Proof.
  rewrite map_map. unfold word_at_B. simpl. apply nth_error_seq_map.
Qed.

Lemma joined_text_defined records tokens :
  map Word.text records = map Some tokens ->
  joined_text records = concat tokens.
Proof.
  unfold joined_text. revert tokens.
  induction records as [|r records IH]; intros [|t tokens] H;
    try discriminate; [reflexivity|].
  simpl in *. injection H as Hr Hrest. rewrite Hr. simpl.
  f_equal. now apply IH.
Qed.

Lemma word_tag_not_empty other x y :
  other <> empty -> word_tag other x y <> empty.
Proof.
  intros Ho. unfold word_tag.
  destruct x as [a|], y as [b|]; auto.
  destruct (str_eqb a b); [discriminate | auto].
Qed.

Lemma nth_error_map_seq {A} (f : nat -> A) n i :
  nth_error (map f (seq 0 n)) i = if i <? n then Some (f i) else None.
Proof.
  destruct (Nat.ltb_spec i n) as [Hlt|Hge].
  - rewrite nth_error_map, nth_error_seq.
    destruct (Nat.ltb_spec i n); [reflexivity | lia].
  - apply nth_error_None. rewrite length_map, length_seq. lia.
Qed.

(** C7: [computeWordDiff] splits each line on runs of whitespace and keeps
    the runs as elements (pieces without whitespace alternate with maximal
    non-empty whitespace runs); every record carries one token as its text,
    in order, so joining the text fields of either output gives back the
    corresponding input line. *)
Theorem computeWordDiff_roundtrip (lineA lineB : jsstring) :
  ws_tokens (split_ws lineA) /\ ws_tokens (split_ws lineB) /\
  map Word.text (fst (computeWordDiff lineA lineB)) = map Some (split_ws lineA) /\
  map Word.text (snd (computeWordDiff lineA lineB)) = map Some (split_ws lineB) /\
  joined_text (fst (computeWordDiff lineA lineB)) = lineA /\
  joined_text (snd (computeWordDiff lineA lineB)) = lineB.
Proof.
  rewrite computeWordDiff_sides. simpl.
  pose proof (word_at_A_text (split_ws lineA) (split_ws lineB)) as HA.
  pose proof (word_at_B_text (split_ws lineA) (split_ws lineB)) as HB.
  repeat split; try apply split_ws_tokens; auto.
  - rewrite (joined_text_defined _ _ HA). apply split_ws_concat.
  - rewrite (joined_text_defined _ _ HB). apply split_ws_concat.
Qed.

(** C10: each output of [computeWordDiff] has exactly as many records as its
    own line has tokens; a position past the end of the other side's tokens
    gets a record on the longer side only ([removed] on side A, [added] on
    side B); no record of either output is tagged [empty]; so the two
    outputs have different lengths whenever the token counts differ. *)
Theorem computeWordDiff_lengths (lineA lineB : jsstring) :
  let wordsA := split_ws lineA in
  let wordsB := split_ws lineB in
  let diffA := fst (computeWordDiff lineA lineB) in
  let diffB := snd (computeWordDiff lineA lineB) in
  length diffA = length wordsA /\
  length diffB = length wordsB /\
  (forall i a, nth_error wordsA i = Some a -> nth_error wordsB i = None ->
     nth_error diffA i = Some (Word.mk (Some a) removed) /\
     nth_error diffB i = None) /\
  (forall i b, nth_error wordsA i = None -> nth_error wordsB i = Some b ->
     nth_error diffA i = None /\
     nth_error diffB i = Some (Word.mk (Some b) added)) /\
  Forall (fun r => Word.type r <> empty) diffA /\
  Forall (fun r => Word.type r <> empty) diffB /\
  (length wordsA <> length wordsB -> length diffA <> length diffB).
Proof.
  intros wordsA wordsB diffA diffB. subst diffA diffB.
  rewrite computeWordDiff_sides. simpl. fold wordsA wordsB.
  rewrite !length_map, !length_seq.
  split; [reflexivity|]. split; [reflexivity|].
  split; [|split; [|split; [|split]]].
  - intros i a HA HB. rewrite !nth_error_map_seq.
    apply nth_error_Some_lt in HA as Hlt. apply nth_error_None in HB as Hge.
    destruct (Nat.ltb_spec i (length wordsA)); [|lia].
    destruct (Nat.ltb_spec i (length wordsB)); [lia|].
    unfold word_at_A, word_tag. now rewrite HA, HB.
  - intros i b HA HB. rewrite !nth_error_map_seq.
    apply nth_error_None in HA as Hge. apply nth_error_Some_lt in HB as Hlt.
    destruct (Nat.ltb_spec i (length wordsA)); [lia|].
    destruct (Nat.ltb_spec i (length wordsB)); [|lia].
    unfold word_at_B, word_tag. now rewrite HA, HB.
  - apply Forall_forall. intros r (i & <- & _)%in_map_iff.
    apply word_tag_not_empty. discriminate.
  - apply Forall_forall. intros r (i & <- & _)%in_map_iff.
    apply word_tag_not_empty. discriminate.
  - auto.
Qed.

(** ** Line diff *)

Lemma computeLineDiff_sides textA textB :
  let linesA := split_lines textA in
  let linesB := split_lines textB in
  let maxLen := Nat.max (length linesA) (length linesB) in
  computeLineDiff textA textB =
    (map (line_at_A linesA linesB) (seq 0 maxLen),
     map (line_at_B linesA linesB) (seq 0 maxLen)).
Proof.
  intros linesA linesB maxLen. unfold computeLineDiff.
  fold linesA linesB maxLen.
  match goal with |- for_range ?n ?b ?s = _ =>
    apply (@for_range_inv _
      (fun k st => st = (map (line_at_A linesA linesB) (seq 0 k),
                         map (line_at_B linesA linesB) (seq 0 k))) n b s)
  end; [reflexivity|].
  intros i [resultA resultB] Hi IH. injection IH as -> ->.
  rewrite !seq_S, !map_app. simpl.
  unfold line_at_A, line_at_B, push.
  destruct (nth_error linesA i) as [a|]; destruct (nth_error linesB i) as [b|];
    try reflexivity.
  destruct (str_eqb a b); reflexivity.
Qed.

(** C4: [computeLineDiff] splits each text on the newline unit alone (the
    pieces contain no newline and joined by newlines give the text back; a
    trailing newline gives a trailing empty line), both outputs have length
    [max] of the two line counts, and position [i] is classified by the
    lines at [i] only: equal lines are [same] on both sides, a line of A
    alone is [removed] against an [empty] placeholder, a line of B alone is
    [added] against an [empty] placeholder, and unequal lines are [changed]
    on both sides, each with its side of the word diff of the two lines. *)
Theorem computeLineDiff_positional (textA textB : jsstring) :
  let linesA := split_lines textA in
  let linesB := split_lines textB in
  let maxLen := Nat.max (length linesA) (length linesB) in
  let resultA := fst (computeLineDiff textA textB) in
  let resultB := snd (computeLineDiff textA textB) in
  (join [nl] linesA = textA /\ Forall (fun l => ~ In nl l) linesA) /\
  (join [nl] linesB = textB /\ Forall (fun l => ~ In nl l) linesB) /\
  (split_lines (textA ++ [nl]) = linesA ++ [[]] /\
   split_lines (textB ++ [nl]) = linesB ++ [[]]) /\
  (length resultA = maxLen /\ length resultB = maxLen) /\
  forall i, i < maxLen ->
    (forall a, nth_error linesA i = Some a -> nth_error linesB i = Some a ->
       nth_error resultA i = Some (Line.mk (Some a) same None) /\
       nth_error resultB i = Some (Line.mk (Some a) same None)) /\
    (forall a, nth_error linesA i = Some a -> nth_error linesB i = None ->
       nth_error resultA i = Some (Line.mk (Some a) removed None) /\
       nth_error resultB i = Some (Line.mk (Some []) empty None)) /\
    (forall b, nth_error linesA i = None -> nth_error linesB i = Some b ->
       nth_error resultA i = Some (Line.mk (Some []) empty None) /\
       nth_error resultB i = Some (Line.mk (Some b) added None)) /\
    (forall a b, nth_error linesA i = Some a -> nth_error linesB i = Some b ->
       a <> b ->
       nth_error resultA i
       = Some (Line.mk (Some a) changed (Some (fst (computeWordDiff a b)))) /\
       nth_error resultB i
       = Some (Line.mk (Some b) changed (Some (snd (computeWordDiff a b))))).
Proof.
  intros linesA linesB maxLen resultA resultB.
  subst resultA resultB. rewrite computeLineDiff_sides.
  fold linesA linesB maxLen. simpl fst. simpl snd.
  split; [|split; [|split; [|split]]].
  - split; [apply (split_on_join nl textA []) | ].
    apply split_on_no_sep. intros [].
  - split; [apply (split_on_join nl textB []) | ].
    apply split_on_no_sep. intros [].
  - split; apply split_on_trailing.
  - rewrite !length_map, !length_seq. auto.
  - intros i Hi. rewrite !nth_error_map_seq.
    destruct (Nat.ltb_spec i maxLen) as [_|]; [|lia].
    unfold line_at_A, line_at_B.
    repeat split; intros; subst;
      repeat match goal with H : nth_error _ i = _ |- _ => rewrite H; clear H end;
      try reflexivity.
    + now rewrite str_eqb_refl.
    + now rewrite str_eqb_refl.
    + match goal with H : _ <> _ |- _ => apply str_eqb_neq in H; now rewrite H end.
    + match goal with H : _ <> _ |- _ => apply str_eqb_neq in H; now rewrite H end.
Qed.

(** The third scenario of the specification: ["a\nb"] against ["a\nc"]. *)
Example computeLineDiff_scenario :
  computeLineDiff (u16 "a" ++ [nl] ++ u16 "b") (u16 "a" ++ [nl] ++ u16 "c")
  = ([Line.mk (Some (u16 "a")) same None;
      Line.mk (Some (u16 "b")) changed (Some [Word.mk (Some (u16 "b")) removed])],
     [Line.mk (Some (u16 "a")) same None;
      Line.mk (Some (u16 "c")) changed (Some [Word.mk (Some (u16 "c")) added])]).
Proof. reflexivity. Qed.

Example split_ws_example :
  split_ws (u16 " a  b ") = [[]; u16 " "; u16 "a"; u16 "  "; u16 "b"; u16 " "; []].
Proof. reflexivity. Qed.

(** ** The insertion-ordered map *)

Module JsMapFacts.
Import JsMap.

Lemma has_In {V} (m : t V) k : has m k = true <-> In k (keys m).
Proof.
  unfold has, keys. rewrite existsb_exists, in_map_iff.
  split; intros (e & H1 & H2); exists e.
  - apply str_eqb_eq in H2. auto.
  - split; [auto | now apply str_eqb_eq].
Qed.

Lemma get_None {V} (m : t V) k : get m k = None <-> ~ In k (keys m).
Proof.
  induction m as [|[k' v'] m IH]; simpl; [tauto|].
  destruct (str_eqb k' k) eqn:Hk.
  - apply str_eqb_eq in Hk. split; [discriminate | intros H; exfalso; auto].
  - apply str_eqb_neq in Hk. rewrite IH. tauto.
Qed.

Lemma has_get {V} (m : t V) k : has m k = false <-> get m k = None.
Proof.
  rewrite get_None, <- has_In. destruct (has m k); split; congruence.
Qed.

Lemma get_In {V} (m : t V) k v : get m k = Some v -> In (k, v) m.
Proof.
  induction m as [|[k' v'] m IH]; simpl; [discriminate|].
  destruct (str_eqb k' k) eqn:Hk.
  - apply str_eqb_eq in Hk. intros [= ->]. subst. auto.
  - auto.
Qed.

Lemma In_get {V} (m : t V) k v :
  NoDup (keys m) -> In (k, v) m -> get m k = Some v.
Proof.
  induction m as [|[k' v'] m IH]; simpl; [tauto|].
  intros Hnd [H|H]; inversion Hnd; subst.
  - injection H as -> ->. now rewrite str_eqb_refl.
  - destruct (str_eqb k' k) eqn:Hk; [|auto].
    apply str_eqb_eq in Hk. subst. exfalso.
    match goal with Hn : ~ In _ _ |- _ => apply Hn end.
    unfold keys. apply in_map_iff. now exists (k, v).
Qed.

Lemma keys_set {V} (m : t V) k v :
  keys (set m k v) = if has m k then keys m else keys m ++ [k].
Proof.
  induction m as [|[k' v'] m IH]; simpl; [reflexivity|].
  unfold has in *. simpl. destruct (str_eqb k' k) eqn:Hk; simpl.
  - reflexivity.
  - rewrite IH. now destruct (existsb _ m).
Qed.

Lemma get_set {V} (m : t V) k v k' :
  get (set m k v) k' = if str_eqb k k' then Some v else get m k'.
Proof.
  induction m as [|[k0 v0] m IH]; simpl; [reflexivity|].
  destruct (str_eqb k0 k) eqn:Hk; simpl.
  - apply str_eqb_eq in Hk. subst. now destruct (str_eqb k k').
  - destruct (str_eqb k0 k') eqn:Hk'; [|apply IH].
    apply str_eqb_eq in Hk'. subst.
    destruct (str_eqb k k') eqn:E; [|reflexivity].
    apply str_eqb_eq in E. subst. rewrite str_eqb_refl in Hk. discriminate.
Qed.

Lemma NoDup_set {V} (m : t V) k v : NoDup (keys m) -> NoDup (keys (set m k v)).
Proof.
  intros Hnd. rewrite keys_set. destruct (has m k) eqn:Hh; [exact Hnd|].
  apply NoDup_app; [exact Hnd | repeat constructor; intros [] | ].
  intros x Hx [<-|[]]. apply has_In in Hx. congruence.
Qed.

Lemma fold_set_NoDup {V} (entries : list (jsstring * V)) (m : t V) :
  NoDup (keys m) ->
  NoDup (keys (fold_left (fun m e => set m (fst e) (snd e)) entries m)).
Proof.
  revert m; induction entries as [|e entries IH]; intros m Hnd; simpl;
    [exact Hnd|].
  apply IH, NoDup_set, Hnd.
Qed.

Lemma of_entries_NoDup {V} (entries : list (jsstring * V)) :
  NoDup (keys (of_entries entries)).
Proof. apply fold_set_NoDup. constructor. Qed.

Lemma filter_filter {A} (f g : A -> bool) l :
  filter f (filter g l) = filter (fun x => g x && f x) l.
Proof.
  induction l as [|x l IH]; simpl; [reflexivity|].
  destruct (g x); simpl; [destruct (f x)|]; now rewrite IH.
Qed.

Lemma fold_set_keys {V} (entries : list (jsstring * V)) (m : t V) :
  keys (fold_left (fun m e => set m (fst e) (snd e)) entries m)
  = keys m
    ++ filter (fun k => negb (has m k)) (first_occurrences (map fst entries)).
Proof.
  revert m; induction entries as [|[k v] entries IH]; intros m; simpl.
  - now rewrite app_nil_r.
  - rewrite IH, keys_set. simpl fst. simpl snd.
    destruct (has m k) eqn:Hh; simpl.
    + f_equal. rewrite filter_filter. apply filter_ext. intros k'.
      assert (has (set m k v) k' = has m k') as ->.
      { apply eq_true_iff_eq. rewrite !has_In, keys_set, Hh. tauto. }
      destruct (str_eqb k' k) eqn:Hk; simpl; [|reflexivity].
      apply str_eqb_eq in Hk. subst. now rewrite Hh.
    + rewrite <- app_assoc. simpl. f_equal. f_equal.
      rewrite filter_filter. apply filter_ext. intros k'.
      destruct (str_eqb k' k) eqn:Hk; simpl.
      * apply str_eqb_eq in Hk. subst.
        assert (has (set m k v) k = true) as ->; [|reflexivity].
        apply has_In. rewrite keys_set, Hh. apply in_or_app. simpl. auto.
      * f_equal. apply eq_true_iff_eq. rewrite !has_In, keys_set, Hh.
        rewrite in_app_iff. simpl. apply str_eqb_neq in Hk.
        intuition congruence.
Qed.

Lemma of_entries_keys {V} (entries : list (jsstring * V)) :
  keys (of_entries entries) = first_occurrences (map fst entries).
Proof.
  unfold of_entries. rewrite fold_set_keys. simpl.
  induction (first_occurrences (map fst entries)) as [|k l IH];
    simpl; [reflexivity | now rewrite IH].
Qed.

Lemma In_first_occurrences l k : In k (first_occurrences l) <-> In k l.
Proof.
  induction l as [|k' l IH]; simpl; [tauto|].
  rewrite filter_In, IH, negb_true_iff, str_eqb_neq.
  destruct (list_eq_dec N.eq_dec k' k); intuition congruence.
Qed.
End JsMapFacts.

(** ** Structural diff *)

Lemma content_neq_iff a b : content_neq a b = true <-> a <> b.
Proof.
  destruct a as [x|], b as [y|]; simpl; try (split; congruence).
  rewrite negb_true_iff, str_eqb_neq. split; congruence.
Qed.

Lemma enabled_neq_iff a b : enabled_neq a b = true <-> a <> b.
Proof.
  destruct a as [[]|], b as [[]|]; simpl; split; congruence.
Qed.

Lemma content_neq_sym a b : content_neq a b = content_neq b a.
Proof.
  apply eq_true_iff_eq. rewrite !content_neq_iff. split; congruence.
Qed.

Lemma enabled_neq_sym a b : enabled_neq a b = enabled_neq b a.
Proof.
  apply eq_true_iff_eq. rewrite !enabled_neq_iff. split; congruence.
Qed.

Lemma fold_left_push {A B} (f : list B -> A -> list B) (l : list A) acc :
  (forall acc x, f acc x = acc ++ f [] x) ->
  fold_left f l acc = acc ++ flat_map (f []) l.
Proof.
  intros Hf. revert acc; induction l as [|x l IH]; intros acc; simpl.
  - now rewrite app_nil_r.
  - rewrite IH, (Hf acc x), <- app_assoc. reflexivity.
Qed.

Lemma compare_entry_push A B promptsB acc e :
  compare_entry A B promptsB acc e = acc ++ compare_entry A B promptsB [] e.
Proof.
  unfold compare_entry, push. destruct e as [k pA].
  destruct (JsMap.get promptsB k) as [pB|]; [|reflexivity].
  destruct (content_neq _ _), (enabled_neq _ _); simpl;
    rewrite <- ?app_assoc, ?app_nil_r; reflexivity.
Qed.

Lemma add_entry_push promptsA acc e :
  add_entry promptsA acc e = acc ++ add_entry promptsA [] e.
Proof.
  unfold add_entry, push. destruct e as [k pB].
  destruct (negb _); simpl; now rewrite ?app_nil_r.
Qed.

Lemma getPromptDifferences_blocks A B :
  getPromptDifferences (Some A) (Some B)
  = flat_map (compare_entry A B (prompt_map B) []) (prompt_map A)
    ++ flat_map (add_entry (prompt_map A) []) (prompt_map B).
Proof.
  unfold getPromptDifferences. fold (prompt_map A) (prompt_map B).
  rewrite (fold_left_push _ _ _ (add_entry_push (prompt_map A))).
  rewrite (fold_left_push _ _ _ (compare_entry_push A B (prompt_map B))).
  reflexivity.
Qed.

(** Membership in the records of one compared identifier. *)
Lemma In_compare_entry A B k pA r :
  In r (compare_entry A B (prompt_map B) [] (k, pA)) <->
  (JsMap.get (prompt_map B) k = None /\ r = Removed k (Prompt.name pA)) \/
  (exists pB, JsMap.get (prompt_map B) k = Some pB /\
     ((Prompt.content pA <> Prompt.content pB /\
       r = ContentChanged k (Prompt.name pA) (Prompt.content pA) (Prompt.content pB))
      \/
      (resolve_enabled A k <> resolve_enabled B k /\
       r = EnabledChanged k (Prompt.name pA)
             (resolve_enabled A k) (resolve_enabled B k)))).
Proof.
  unfold compare_entry, push. fold (resolve_enabled A k) (resolve_enabled B k).
  destruct (JsMap.get (prompt_map B) k) as [pB|].
  - destruct (content_neq _ _) eqn:Hc, (enabled_neq _ _) eqn:He; simpl; split.
    all: try (intros Hin; right; exists pB; split; [reflexivity|];
              repeat (destruct Hin as [<-|Hin];
                      [ first [ left; split;
                                [apply content_neq_iff; assumption | reflexivity]
                              | right; split;
                                [apply enabled_neq_iff; assumption | reflexivity] ]
                      | ]);
              destruct Hin).
    all: intros [[H _]|(pB' & [= <-] & [[Hne ->]|[Hne ->]])];
      [ discriminate
      | apply content_neq_iff in Hne; rewrite Hne in Hc; try discriminate; auto
      | apply enabled_neq_iff in Hne; rewrite Hne in He; try discriminate; auto ].
  - simpl. split.
    + intros [<-|[]]. auto.
    + intros [[_ ->]|(pB & H & _)]; [auto | discriminate].
Qed.

Lemma In_add_entry promptsA k pB r :
  In r (add_entry promptsA [] (k, pB)) <->
  JsMap.has promptsA k = false /\ r = Added k (Prompt.name pB).
Proof.
  unfold add_entry, push. destruct (JsMap.has promptsA k); simpl.
  - split; [intros [] | intros [H _]; discriminate].
  - split; [intros [<-|[]]; auto | intros [_ ->]; auto].
Qed.

Lemma prompt_map_NoDup s : NoDup (JsMap.keys (prompt_map s)).
Proof. apply JsMapFacts.of_entries_NoDup. Qed.

Lemma prompt_map_entry s k p :
  In (k, p) (prompt_map s) <-> JsMap.get (prompt_map s) k = Some p.
Proof.
  split; [apply JsMapFacts.In_get, prompt_map_NoDup | apply JsMapFacts.get_In].
Qed.

(** Membership in the whole diff, by record kind. *)
Lemma In_diff_Removed A B i n :
  In (Removed i n) (getPromptDifferences (Some A) (Some B)) <->
  exists pA, JsMap.get (prompt_map A) i = Some pA
             /\ JsMap.get (prompt_map B) i = None /\ n = Prompt.name pA.
Proof.
  rewrite getPromptDifferences_blocks, in_app_iff, !in_flat_map. split.
  - intros [([k pA] & Hin & Hr)|([k pB] & Hin & Hr)].
    + apply In_compare_entry in Hr as [[Hg [= -> ->]]|(pB & _ & [[_ ?]|[_ ?]])];
        try discriminate.
      exists pA. rewrite <- prompt_map_entry. auto.
    + apply In_add_entry in Hr as [_ ?]. discriminate.
  - intros (pA & HA & HB & ->). left. exists (i, pA).
    split; [now apply prompt_map_entry | apply In_compare_entry; auto].
Qed.

Lemma In_diff_Added A B i n :
  In (Added i n) (getPromptDifferences (Some A) (Some B)) <->
  exists pB, JsMap.get (prompt_map B) i = Some pB
             /\ JsMap.get (prompt_map A) i = None /\ n = Prompt.name pB.
Proof.
  rewrite getPromptDifferences_blocks, in_app_iff, !in_flat_map. split.
  - intros [([k pA] & Hin & Hr)|([k pB] & Hin & Hr)].
    + apply In_compare_entry in Hr as [[_ ?]|(pB & _ & [[_ ?]|[_ ?]])];
        discriminate.
    + apply In_add_entry in Hr as [Hh [= -> ->]].
      exists pB. rewrite <- prompt_map_entry, <- JsMapFacts.has_get. auto.
  - intros (pB & HB & HA & ->). right. exists (i, pB).
    split; [now apply prompt_map_entry | ].
    apply In_add_entry. split; [now apply JsMapFacts.has_get | reflexivity].
Qed.

Lemma In_diff_ContentChanged A B i n a b :
  In (ContentChanged i n a b) (getPromptDifferences (Some A) (Some B)) <->
  exists pA pB, JsMap.get (prompt_map A) i = Some pA
                /\ JsMap.get (prompt_map B) i = Some pB
                /\ n = Prompt.name pA /\ a = Prompt.content pA
                /\ b = Prompt.content pB /\ a <> b.
Proof.
  rewrite getPromptDifferences_blocks, in_app_iff, !in_flat_map. split.
  - intros [([k pA] & Hin & Hr)|([k pB] & Hin & Hr)].
    + apply In_compare_entry in Hr as [[_ ?]|(pB & Hg & [[Hne He]|[_ ?]])];
        try discriminate.
      injection He as -> -> -> ->.
      exists pA, pB. rewrite <- prompt_map_entry. auto 10.
    + apply In_add_entry in Hr as [_ ?]. discriminate.
  - intros (pA & pB & HA & HB & -> & -> & -> & Hne). left. exists (i, pA).
    split; [now apply prompt_map_entry | ].
    apply In_compare_entry. right. exists pB. auto.
Qed.

Lemma In_diff_EnabledChanged A B i n a b :
  In (EnabledChanged i n a b) (getPromptDifferences (Some A) (Some B)) <->
  exists pA pB, JsMap.get (prompt_map A) i = Some pA
                /\ JsMap.get (prompt_map B) i = Some pB
                /\ n = Prompt.name pA /\ a = resolve_enabled A i
                /\ b = resolve_enabled B i /\ a <> b.
Proof.
  rewrite getPromptDifferences_blocks, in_app_iff, !in_flat_map. split.
  - intros [([k pA] & Hin & Hr)|([k pB] & Hin & Hr)].
    + apply In_compare_entry in Hr as [[_ ?]|(pB & Hg & [[_ ?]|[Hne He]])];
        try discriminate.
      injection He as -> -> -> ->.
      exists pA, pB. rewrite <- prompt_map_entry. auto 10.
    + apply In_add_entry in Hr as [_ ?]. discriminate.
  - intros (pA & pB & HA & HB & -> & -> & -> & Hne). left. exists (i, pA).
    split; [now apply prompt_map_entry | ].
    apply In_compare_entry. right. exists pB. auto.
Qed.

(** *** Resolution of the enabled flag *)

Lemma find_first_item k l :
  match find (fun e => str_eqb (OrderItem.identifier e) k) l with
  | Some e => first_item k l e
  | None => ~ In k (map OrderItem.identifier l)
  end.
Proof.
  induction l as [|e l IH]; simpl; [tauto|].
  destruct (str_eqb (OrderItem.identifier e) k) eqn:He.
  - apply str_eqb_eq in He. now constructor.
  - apply str_eqb_neq in He.
    destruct (find _ l); [now constructor | tauto].
Qed.

Lemma first_item_In k l e : first_item k l e -> In k (map OrderItem.identifier l).
Proof. induction 1; simpl; auto. Qed.

Lemma first_item_fun k l e e' : first_item k l e -> first_item k l e' -> e = e'.
Proof.
  induction 1; inversion 1; subst; auto; contradiction.
Qed.

Lemma order_some_iff o k : order_some o k = true <-> order_contains o k.
Proof.
  unfold order_some, order_contains. destruct (order o) as [l|].
  - rewrite existsb_exists. split.
    + intros (e & Hin & He%str_eqb_eq). exists l. split; [reflexivity|].
      apply in_map_iff. eauto.
    + intros (l' & [= <-] & (e & He & Hin)%in_map_iff).
      exists e. split; [auto | now apply str_eqb_eq].
  - split; [discriminate | intros (l & H & _); discriminate].
Qed.

Lemma order_find_enabled_resolves k os :
  resolves_enabled k os
    (order_find_enabled (find (fun o => order_some o k) os) k).
Proof.
  induction os as [|o os IH]; simpl; [constructor|].
  destruct (order_some o k) eqn:Ho.
  - apply order_some_iff in Ho as (l & Hl & Hin). simpl. rewrite Hl.
    pose proof (find_first_item k l) as Hf.
    destruct (find _ l) as [e|]; [|contradiction].
    now apply re_here with l.
  - apply re_skip; [|exact IH].
    rewrite <- order_some_iff. congruence.
Qed.

Lemma resolves_enabled_fun k os v v' :
  resolves_enabled k os v -> resolves_enabled k os v' -> v = v'.
Proof.
  induction 1 as [|o os l e Hl Hf|o os v Hn _ IH]; inversion 1; subst; auto.
  - f_equal. f_equal. eapply first_item_fun; eauto. congruence.
  - exfalso. match goal with Hc : ~ order_contains _ _ |- _ => apply Hc end.
    exists l. split; [auto | eapply first_item_In; eauto].
  - exfalso. apply Hn.
    match goal with Hl : order o = Some ?l |- _ => exists l end.
    split; [auto | eapply first_item_In; eauto].
Qed.

Lemma prompt_map_present s k :
  In k (map Prompt.identifier (prompts s)) ->
  exists p, JsMap.get (prompt_map s) k = Some p.
Proof.
  intros Hin. destruct (JsMap.get (prompt_map s) k) as [p|] eqn:Hg; [eauto|].
  exfalso. apply JsMapFacts.get_None in Hg. apply Hg.
  unfold prompt_map. rewrite JsMapFacts.of_entries_keys, map_map.
  now apply JsMapFacts.In_first_occurrences.
Qed.

Lemma resolves_enabled_absent k os v :
  (forall o, In o os -> ~ order_contains o k) ->
  resolves_enabled k os v -> v = None.
Proof.
  intros Hno Hr. induction Hr as [|o os l e Hl Hf|o os v Hn _ IH].
  - reflexivity.
  - exfalso. apply (Hno o); [now left|].
    exists l. split; [exact Hl | eapply first_item_In; eauto].
  - apply IH. intros o' Ho'. apply Hno. now right.
Qed.

(** C3: for an identifier [k] present in both snapshots, each side's enabled
    flag is the one the first order entry containing [k] gives to [k]
    ([undefined] when none contains it); an [EnabledChanged] record for [k]
    is in the diff exactly when the two flags differ, it carries these two
    flags, and whether a [ContentChanged] record for [k] is there as well
    depends on the contents alone. *)
Theorem enabled_changed_resolution (A B : Snapshot) (k : jsstring) :
  In k (map Prompt.identifier (prompts A)) ->
  In k (map Prompt.identifier (prompts B)) ->
  exists pA pB eA eB,
    JsMap.get (prompt_map A) k = Some pA /\
    JsMap.get (prompt_map B) k = Some pB /\
    (forall v, resolves_enabled k (promptOrder A) v <-> v = eA) /\
    (forall v, resolves_enabled k (promptOrder B) v <-> v = eB) /\
    ((forall o, In o (promptOrder A) -> ~ order_contains o k) -> eA = None) /\
    ((forall o, In o (promptOrder B) -> ~ order_contains o k) -> eB = None) /\
    (In (EnabledChanged k (Prompt.name pA) eA eB)
        (getPromptDifferences (Some A) (Some B)) <-> eA <> eB) /\
    (forall n a b,
       In (EnabledChanged k n a b) (getPromptDifferences (Some A) (Some B)) ->
       n = Prompt.name pA /\ a = eA /\ b = eB) /\
    (In (ContentChanged k (Prompt.name pA) (Prompt.content pA) (Prompt.content pB))
        (getPromptDifferences (Some A) (Some B))
     <-> Prompt.content pA <> Prompt.content pB).
Proof.
  intros HA HB.
  destruct (prompt_map_present A k HA) as [pA HpA].
  destruct (prompt_map_present B k HB) as [pB HpB].
  pose proof (order_find_enabled_resolves k (promptOrder A)) as HrA.
  pose proof (order_find_enabled_resolves k (promptOrder B)) as HrB.
  fold (resolve_enabled A k) in HrA. fold (resolve_enabled B k) in HrB.
  exists pA, pB, (resolve_enabled A k), (resolve_enabled B k).
  split; [exact HpA|]. split; [exact HpB|].
  split; [|split; [|split; [|split; [|split; [|split]]]]].
  - intros v. split; [|now intros ->].
    intros Hv. eapply resolves_enabled_fun; eauto.
  - intros v. split; [|now intros ->].
    intros Hv. eapply resolves_enabled_fun; eauto.
  - intros Hno. eapply resolves_enabled_absent; eauto.
  - intros Hno. eapply resolves_enabled_absent; eauto.
  - rewrite In_diff_EnabledChanged. split.
    + intros (pA' & pB' & _ & _ & _ & _ & _ & Hne). exact Hne.
    + intros Hne. exists pA, pB. auto 10.
  - intros n a b (pA' & pB' & HA' & _ & -> & -> & -> & _)%In_diff_EnabledChanged.
    repeat split. congruence.
  - rewrite In_diff_ContentChanged. split.
    + intros (pA' & pB' & _ & _ & _ & _ & _ & Hne). exact Hne.
    + intros Hne. exists pA, pB. auto 10.
Qed.

(** For a prompt renamed between two snapshots, the record of one direction
    with its two fields exchanged is not a record of the other direction:
    the other direction names its record after its own first snapshot. *)
Lemma getPromptDifferences_renamed_not_mirrored :
  (In (ContentChanged (u16 "k") (u16 "old") (Some (u16 "x")) (Some (u16 "y")))
      (getPromptDifferences (Some snapshot_old_name) (Some snapshot_new_name)) /\
   ~ In (ContentChanged (u16 "k") (u16 "old") (Some (u16 "y")) (Some (u16 "x")))
       (getPromptDifferences (Some snapshot_new_name) (Some snapshot_old_name)))
  /\
  (In (EnabledChanged (u16 "k") (u16 "old") (Some true) (Some false))
      (getPromptDifferences (Some snapshot_old_name) (Some snapshot_new_name)) /\
   ~ In (EnabledChanged (u16 "k") (u16 "old") (Some false) (Some true))
       (getPromptDifferences (Some snapshot_new_name) (Some snapshot_old_name))).
Proof.
  vm_compute. repeat split; auto.
  - intros [H|[H|[]]]; discriminate.
  - intros [H|[H|[]]]; discriminate.
Qed.

(** C5, as the code has it: the diffs in the two directions mirror each
    other.  An [Added] record one way is a [Removed] record with the same
    identifier and name the other way, and conversely.  A [ContentChanged]
    (or [EnabledChanged]) record one way, named after A's prompt, has a
    record of the same kind and identifier the other way with its two
    content (or enabled) fields exchanged, named after B's prompt; the
    exchanged record keeps the name exactly when the two prompts have the
    same name. *)
Theorem getPromptDifferences_inverse (A B : Snapshot) :
  (forall i n, In (Added i n) (getPromptDifferences (Some A) (Some B)) <->
               In (Removed i n) (getPromptDifferences (Some B) (Some A))) /\
  (forall i n, In (Removed i n) (getPromptDifferences (Some A) (Some B)) <->
               In (Added i n) (getPromptDifferences (Some B) (Some A))) /\
  (forall i n a b,
     In (ContentChanged i n a b) (getPromptDifferences (Some A) (Some B)) ->
     exists pA pB,
       JsMap.get (prompt_map A) i = Some pA /\
       JsMap.get (prompt_map B) i = Some pB /\
       n = Prompt.name pA /\
       In (ContentChanged i (Prompt.name pB) b a)
          (getPromptDifferences (Some B) (Some A)) /\
       (In (ContentChanged i n b a) (getPromptDifferences (Some B) (Some A))
        <-> Prompt.name pA = Prompt.name pB)) /\
  (forall i n a b,
     In (EnabledChanged i n a b) (getPromptDifferences (Some A) (Some B)) ->
     exists pA pB,
       JsMap.get (prompt_map A) i = Some pA /\
       JsMap.get (prompt_map B) i = Some pB /\
       n = Prompt.name pA /\
       In (EnabledChanged i (Prompt.name pB) b a)
          (getPromptDifferences (Some B) (Some A)) /\
       (In (EnabledChanged i n b a) (getPromptDifferences (Some B) (Some A))
        <-> Prompt.name pA = Prompt.name pB)).
Proof.
  repeat split.
  - intros (p & H1 & H2 & ->)%In_diff_Added. apply In_diff_Removed. eauto.
  - intros (p & H1 & H2 & ->)%In_diff_Removed. apply In_diff_Added. eauto.
  - intros (p & H1 & H2 & ->)%In_diff_Removed. apply In_diff_Added. eauto.
  - intros (p & H1 & H2 & ->)%In_diff_Added. apply In_diff_Removed. eauto.
  - intros i n a b (pA & pB & HA & HB & -> & -> & -> & Hne)%In_diff_ContentChanged.
    exists pA, pB. split; [exact HA|]. split; [exact HB|].
    split; [reflexivity|]. split.
    + apply In_diff_ContentChanged. exists pB, pA. auto 10.
    + rewrite In_diff_ContentChanged. split.
      * intros (pB' & pA' & HB' & _ & Hn & _). congruence.
      * intros Hn. exists pB, pA. auto 10.
  - intros i n a b (pA & pB & HA & HB & -> & -> & -> & Hne)%In_diff_EnabledChanged.
    exists pA, pB. split; [exact HA|]. split; [exact HB|].
    split; [reflexivity|]. split.
    + apply In_diff_EnabledChanged. exists pB, pA. auto 10.
    + rewrite In_diff_EnabledChanged. split.
      * intros (pB' & pA' & HB' & _ & Hn & _). congruence.
      * intros Hn. exists pB, pA. auto 10.
Qed.

(** C9: when either argument is [null] the diff is the empty sequence. *)
Theorem getPromptDifferences_absent (S : option Snapshot) :
  getPromptDifferences None S = [] /\ getPromptDifferences S None = [].
Proof. split; [reflexivity | destruct S; reflexivity]. Qed.

Lemma compare_entry_records A B promptsB k pA :
  Forall (fun r => record_identifier r = k /\ is_added r = false)
    (compare_entry A B promptsB [] (k, pA)).
Proof.
  unfold compare_entry, push.
  destruct (JsMap.get promptsB k) as [pB|]; [|repeat constructor].
  destruct (content_neq _ _), (enabled_neq _ _); repeat constructor.
Qed.

Lemma add_entry_additions promptsA (promptsB : JsMap.t Prompt.t) :
  Forall (fun r => is_added r = true)
    (flat_map (add_entry promptsA []) promptsB) /\
  map record_identifier (flat_map (add_entry promptsA []) promptsB)
  = filter (fun k => negb (JsMap.has promptsA k)) (JsMap.keys promptsB).
Proof.
  induction promptsB as [|[k pB] m [IH1 IH2]]; [split; constructor|].
  unfold JsMap.keys in *. cbn [flat_map map fst filter].
  assert (add_entry promptsA [] (k, pB)
          = if negb (JsMap.has promptsA k)
            then [Added k (Prompt.name pB)] else []) as ->
    by (unfold add_entry; destruct (negb _); reflexivity).
  destruct (negb (JsMap.has promptsA k)); simpl.
  - split; [constructor; auto | now rewrite IH2].
  - auto.
Qed.

Lemma prompt_map_keys s :
  JsMap.keys (prompt_map s)
  = first_occurrences (map Prompt.identifier (prompts s)).
Proof.
  unfold prompt_map. now rewrite JsMapFacts.of_entries_keys, map_map.
Qed.

(** C8: the diff is the concatenation of one block of records per
    identifier of A, in the iteration order of A's map (each identifier at
    the place of its first occurrence in [A.prompts]), every record of a
    block being a [Removed], [ContentChanged] or [EnabledChanged] record of
    that identifier, followed by the [Added] records of the identifiers of
    B that A lacks. *)
Theorem getPromptDifferences_order (A B : Snapshot) :
  let keysA := JsMap.keys (prompt_map A) in
  let keysB := JsMap.keys (prompt_map B) in
  keysA = first_occurrences (map Prompt.identifier (prompts A)) /\
  keysB = first_occurrences (map Prompt.identifier (prompts B)) /\
  exists blocks additions,
    getPromptDifferences (Some A) (Some B) = concat blocks ++ additions /\
    Forall2
      (fun k block =>
         Forall (fun r => record_identifier r = k /\ is_added r = false) block)
      keysA blocks /\
    Forall (fun r => is_added r = true) additions /\
    map record_identifier additions
    = filter (fun k => negb (JsMap.has (prompt_map A) k)) keysB.
Proof.
  intros keysA keysB. subst keysA keysB.
  split; [apply prompt_map_keys | split; [apply prompt_map_keys|]].
  exists (map (compare_entry A B (prompt_map B) []) (prompt_map A)),
         (flat_map (add_entry (prompt_map A) []) (prompt_map B)).
  rewrite getPromptDifferences_blocks, flat_map_concat_map.
  split; [reflexivity|]. split; [|apply add_entry_additions].
  unfold JsMap.keys. induction (prompt_map A) as [|[k pA] m IH]; simpl;
    constructor; [apply compare_entry_records | exact IH].
Qed.

(** ** The caller's reading of the diff *)

Lemma render_difference_head diff index :
  hd_error (render_difference diff index) = Some nl.
Proof. destruct diff; reflexivity. Qed.

Lemma join_head x rest c :
  hd_error x = Some c -> hd_error (join [] (x :: rest)) = Some c.
Proof.
  destruct x as [|y x]; [discriminate|]. intros [= ->].
  destruct rest; reflexivity.
Qed.

(** C6: the diff of a snapshot (or of [null]) with itself is empty, and
    [renderDifferences] reports no differences for the empty sequence and
    for no other. *)
Theorem getPromptDifferences_self (A : option Snapshot) :
  getPromptDifferences A A = [] /\
  forall differences,
    renderDifferences differences = no_diff_banner <-> differences = [].
Proof.
  split.
  - destruct A as [A|]; [|reflexivity].
    destruct (getPromptDifferences (Some A) (Some A)) as [|r l] eqn:Hd;
      [reflexivity|].
    assert (In r (getPromptDifferences (Some A) (Some A))) as Hin
      by (rewrite Hd; left; reflexivity).
    exfalso. destruct r as [i n|i n|i n a b|i n a b].
    + apply In_diff_Removed in Hin as (p & H1 & H2 & _). congruence.
    + apply In_diff_Added in Hin as (p & H1 & H2 & _). congruence.
    + apply In_diff_ContentChanged in Hin
        as (p & p' & H1 & H2 & _ & -> & -> & Hne). congruence.
    + apply In_diff_EnabledChanged in Hin
        as (p & p' & _ & _ & _ & -> & -> & Hne). congruence.
  - intros [|d rest]; [split; reflexivity|]. split; [|discriminate].
    change (renderDifferences (d :: rest))
      with (join [] (render_difference d 0
                     :: map_indexed render_difference rest 1)).
    intros Heq.
    pose proof (join_head _ (map_indexed render_difference rest 1) _
                  (render_difference_head d 0)) as Hh.
    pose proof (eq_trans (eq_sym Hh) (f_equal (@hd_error code_unit) Heq)) as Hc.
    vm_compute in Hc. discriminate.
Qed.

(** ** State substitution controller *)

Section ControllerFacts.
Context {E : Type} (host : Host E).

Lemma settings_eta (s : Settings.t) :
  Settings.mk (Settings.prompts s) (Settings.prompt_order s) = s.
Proof. destruct s; reflexivity. Qed.

(** Capturing changes nothing, and returns [null] exactly when there are
    no service settings; otherwise the snapshot holds the live lists. *)
Lemma captureCurrentPromptState_spec (w : World E) :
  snd (captureCurrentPromptState host w) = w /\
  match serviceSettings w with
  | None => fst (captureCurrentPromptState host w) = Normal None
  | Some s =>
      exists snap,
        fst (captureCurrentPromptState host w) = Normal (Some snap) /\
        prompts snap = Settings.prompts s /\
        promptOrder snap = Settings.prompt_order s
  end.
Proof.
  unfold captureCurrentPromptState.
  destruct (serviceSettings w) as [s|]; simpl; eauto.
Qed.

(** [applyPromptState] never touches the transcript and keeps the
    availability of the service settings. *)
Lemma applyPromptState_spec (state : option Snapshot) (w : World E) :
  let w' := snd (applyPromptState host state w) in
  chat w' = chat w /\
  match serviceSettings w, state with
  | Some _, Some snap =>
      serviceSettings w' = Some (Settings.mk (prompts snap) (promptOrder snap))
  | _, _ => w' = w /\ fst (applyPromptState host state w) = Normal false
  end.
Proof.
  unfold applyPromptState.
  destruct (serviceSettings w) as [s|] eqn:Hs, state as [snap|]; simpl; auto.
  destruct (render host _ (ext w)) as [[e|] x]; simpl; rewrite ?Hs; auto.
Qed.

(** The [try] block keeps the availability of the service settings. *)
Lemma try_block_available (state : option Snapshot)
    (testMessage : option jsstring) (w : World E) :
  serviceSettings (snd (try_block host state testMessage w)) = None
  <-> serviceSettings w = None.
Proof.
  unfold try_block, bind, modify, ret, await_generate, applyPromptState.
  destruct w as [ss ch st x]; simpl.
  destruct ss as [s|], state as [snap|]; simpl;
    try destruct (render host _ x) as [[e|] x']; simpl;
    try (destruct testMessage as [m|];
         [destruct (truthy m && truthy (trim m))|]; simpl;
         destruct (fold_left _ _ _) as [ft sd];
         destruct (settled _) as [e|r]; simpl);
    split; congruence.
Qed.

(** The [finally] block puts back the saved transcript and, when a
    baseline was captured and the settings are available, the baseline's
    lists; it throws only what the restoring [render] throws. *)
Lemma finally_block_spec (originalState : option Snapshot)
    (originalChat : list ChatMessage.t) (w : World E) :
  let r := finally_block host originalState originalChat w in
  chat (snd r) = originalChat /\
  match serviceSettings w, originalState with
  | Some _, Some snap =>
      serviceSettings (snd r)
      = Some (Settings.mk (prompts snap) (promptOrder snap)) /\
      forall e, fst r = Thrown e ->
        exists x, fst (render host (Settings.mk (prompts snap) (promptOrder snap)) x)
                  = Some e
  | _, _ => serviceSettings (snd r) = serviceSettings w /\ fst r = Normal tt
  end.
Proof.
  unfold finally_block, bind, modify, ret, applyPromptState.
  destruct w as [ss ch st x]; simpl.
  destruct originalState as [snap|], ss as [s|]; simpl; auto.
  destruct (render host _ x) as [[e|] x'] eqn:Hr; simpl.
  - repeat split; auto. intros e' [= <-]. exists x. now rewrite Hr.
  - repeat split; auto. discriminate.
Qed.
(** [generateWithState] step by step: the baseline, the [try] block with
    its [catch], the [finally] block. *)
Lemma generateWithState_steps (state : option Snapshot)
    (testMessage : option jsstring) (w : World E) :
  exists originalState,
    captureCurrentPromptState host w = (Normal originalState, w) /\
    generateWithState host state testMessage w =
      let '(c1, w1) := try_block host state testMessage w in
      let '(c2, w2) := finally_block host originalState (chat w) w1 in
      (match c2 with
       | Thrown e => Thrown e
       | Normal _ => caught host c1
       end, w2).
Proof.
  destruct (captureCurrentPromptState_spec w) as [Hw Hc].
  unfold generateWithState, bind, gets, try_catch_finally, catch_block, ret,
    caught.
  destruct (captureCurrentPromptState host w) as [c0 w0]. simpl in Hw, Hc.
  subst w0.
  assert (exists originalState, c0 = Normal originalState) as [o ->].
  { destruct (serviceSettings w); [destruct Hc as (snap & -> & _)|]; eauto. }
  exists o. split; [reflexivity|].
  destruct (try_block host state testMessage w) as [[text|e] w1];
    [|destruct (error_string e)];
    destruct (finally_block host o (chat w) w1) as [[u|e'] w2]; reflexivity.
Qed.
End ControllerFacts.

(** Opens a goal about one call of [generateWithState]: names the baseline
    [o], the outcome [(c1, w1)] of the [try] block and the outcome
    [(c2, w2)] of the [finally] block, with the facts known about them. *)
Ltac open_call host state testMessage w :=
  let Hcap := fresh "Hcap" in
  let Hrun := fresh "Hrun" in
  destruct (generateWithState_steps host state testMessage w)
    as (o & Hcap & Hrun);
  rewrite Hrun; clear Hrun;
  pose proof (captureCurrentPromptState_spec host w) as [_ Hbase];
  rewrite Hcap in *; cbn [fst] in Hbase;
  pose proof (try_block_available host state testMessage w) as Hav;
  destruct (try_block host state testMessage w) as [c1 w1];
  cbn [snd] in Hav;
  pose proof (finally_block_spec host o (chat w) w1) as Hfin;
  cbv zeta in Hfin;
  destruct (finally_block host o (chat w) w1) as [c2 w2];
  cbn [fst snd] in *.

(** C1: whatever the snapshot, the test input and the behaviour of the
    host (generation resolving or rejecting, [render] throwing, the
    transcript or the prompt lists rewritten meanwhile), when
    [generateWithState] completes the transcript and the service settings
    are what they were before the call; the baseline capture is [null],
    and the settings restoration skipped, exactly when there are no service
    settings. *)
Theorem generateWithState_restores {E : Type} (host : Host E)
    (state : option Snapshot) (testMessage : option jsstring) (w : World E) :
  let r := generateWithState host state testMessage w in
  chat (snd r) = chat w /\
  serviceSettings (snd r) = serviceSettings w /\
  (fst (captureCurrentPromptState host w) = Normal None
   <-> serviceSettings w = None).
Proof.
  cbv zeta. open_call host state testMessage w.
  destruct Hfin as [Hchat Hset]. split; [exact Hchat|].
  destruct (serviceSettings w) as [s|] eqn:Hs.
  - destruct Hbase as (snap & [= ->] & Hp & Ho).
    destruct (serviceSettings w1) as [s1|] eqn:Hs1.
    + destruct Hset as [-> _]. rewrite Hp, Ho, settings_eta.
      repeat split; intros; discriminate.
    + destruct Hav as [Hav _]. specialize (Hav eq_refl). discriminate.
  - injection Hbase as ->.
    assert (serviceSettings w1 = None) as Hs1 by now apply Hav.
    rewrite Hs1 in Hset. destruct Hset as [-> _]. repeat split; auto.
Qed.

(** A run in which [generateWithState] raises to its caller: [render]
    throws in the [try] block, which is recovered, and again in the
    [finally] block, which is not. *)
Lemma generateWithState_raises :
  fst (generateWithState failing_host
         (Some (sample_snapshot [sample_prompt "p1" "Hi"] []))
         (Some (u16 "test")) sample_world)
  = Thrown render_error /\
  ~ exists text,
      fst (generateWithState failing_host
             (Some (sample_snapshot [sample_prompt "p1" "Hi"] []))
             (Some (u16 "test")) sample_world)
      = Normal text.
Proof.
  split; [reflexivity|]. intros [text H]. vm_compute in H. discriminate.
Qed.

(** C2, as the code has it.  The steps before the [try] block (baseline
    capture, transcript copy) lie outside it; on a live state of the types
    modelled here they complete and change nothing.  From there on
    [generateWithState] returns the text of the [try] block, or the error
    string [`Error: ${error.message}`] of whatever value the [try] block
    (apply, transcript append, generation) threw.  It raises to its caller
    in two cases only: the restoring [render] of the [finally] block throws
    (which needs a captured baseline), or the [try] block threw [null] or
    [undefined], so that the [catch] block's own read of [error.message]
    throws the engine's [TypeError]. *)
Theorem generateWithState_completion {E : Type} (host : Host E)
    (state : option Snapshot) (testMessage : option jsstring) (w : World E) :
  (exists originalState,
     captureCurrentPromptState host w = (Normal originalState, w)) /\
  match fst (generateWithState host state testMessage w) with
  | Normal text =>
      match fst (try_block host state testMessage w) with
      | Normal generated => text = generated
      | Thrown e => error_string e = Some text
      end
  | Thrown e =>
      (exists s x, serviceSettings w = Some s /\ fst (render host s x) = Some e)
      \/
      (fst (try_block host state testMessage w) = Thrown Nullish /\
       e = nullish_property_error host)
  end.
Proof.
  split.
  { destruct (generateWithState_steps host state testMessage w)
      as (o & Hcap & _). eauto. }
  pose proof (eq_refl (fst (try_block host state testMessage w))) as Htry.
  revert Htry.
  generalize (fst (try_block host state testMessage w)) at 1 3 4.
  intros c Htry. open_call host state testMessage w. subst c.
  destruct c2 as [u|e2].
  - unfold caught. destruct c1 as [text|e]; [reflexivity|].
    destruct e as [|m]; simpl; [right; split; reflexivity | reflexivity].
  - left. destruct (serviceSettings w) as [s|] eqn:Hs.
    + destruct Hbase as (snap & [= ->] & Hp & Ho).
      destruct (serviceSettings w1) as [s1|] eqn:Hs1.
      * destruct Hfin as (_ & _ & Hthrow).
        destruct (Hthrow e2 eq_refl) as [x Hx].
        rewrite Hp, Ho, settings_eta in Hx. eauto.
      * destruct Hav as [Hav _]. specialize (Hav eq_refl). discriminate.
    + injection Hbase as ->.
      assert (serviceSettings w1 = None) as Hs1 by now apply Hav.
      rewrite Hs1 in Hfin. destruct Hfin as (_ & _ & Hn). discriminate.
Qed.

(** Runs of the controller on a small live state: a successful generation,
    a rejected one, and a [render] that fails in the [try] block only. *)
Example generateWithState_success :
  generateWithState working_host
    (Some (sample_snapshot [sample_prompt "p1" "Hi"] []))
    (Some (u16 " test ")) sample_world
  = (Normal (u16 "reply"),
     mkWorld (serviceSettings sample_world) (chat sample_world)
       (Some (u16 "reply")) tt).
Proof. reflexivity. Qed.

Example generateWithState_rejected :
  generateWithState rejecting_host
    (Some (sample_snapshot [sample_prompt "p1" "Hi"] []))
    (Some (u16 "test")) sample_world
  = (Normal (u16 "Error: timeout"),
     mkWorld (serviceSettings sample_world) (chat sample_world)
       (Some (u16 "par")) tt).
Proof. reflexivity. Qed.

Example generateWithState_apply_fails :
  generateWithState flaky_host
    (Some (sample_snapshot [sample_prompt "p1" "Hi"] []))
    None (mkWorld (serviceSettings sample_world) (chat sample_world) None 0)
  = (Normal (u16 "Error: render failed"),
     mkWorld (serviceSettings sample_world) (chat sample_world) None 2).
Proof. reflexivity. Qed.

Example trim_example : trim (u16 "  a b ") = u16 "a b".
Proof. reflexivity. Qed.

Example is_ws_examples :
  map is_ws [9; 10; 13; 32; 160; 8200; 12288; 65279; 97; 8203; 0]%N
  = [true; true; true; true; true; true; true; true; false; false; false].
Proof. reflexivity. Qed.

(** ** Concrete diffs *)

Example getPromptDifferences_sample :
  getPromptDifferences (Some snapshot_one) (Some snapshot_two)
  = [ContentChanged (u16 "p1") (u16 "p1") (Some (u16 "Hello")) (Some (u16 "Hi"));
     EnabledChanged (u16 "p1") (u16 "p1") (Some true) (Some false);
     Removed (u16 "p2") (u16 "p2")].
Proof. reflexivity. Qed.

Example getPromptDifferences_sample_reversed :
  getPromptDifferences (Some snapshot_two) (Some snapshot_one)
  = [ContentChanged (u16 "p1") (u16 "p1") (Some (u16 "Hi")) (Some (u16 "Hello"));
     EnabledChanged (u16 "p1") (u16 "p1") (Some false) (Some true);
     Added (u16 "p2") (u16 "p2")].
Proof. reflexivity. Qed.

(** A renamed prompt: the two directions name the record differently. *)
Example getPromptDifferences_renamed :
  let A := sample_snapshot
             [Prompt.mk (u16 "k") (u16 "old") (Some (u16 "x")) [] false false] [] in
  let B := sample_snapshot
             [Prompt.mk (u16 "k") (u16 "new") (Some (u16 "y")) [] false false] [] in
  getPromptDifferences (Some A) (Some B)
  = [ContentChanged (u16 "k") (u16 "old") (Some (u16 "x")) (Some (u16 "y"))] /\
  getPromptDifferences (Some B) (Some A)
  = [ContentChanged (u16 "k") (u16 "new") (Some (u16 "y")) (Some (u16 "x"))].
Proof. split; reflexivity. Qed.

(** A repeated identifier: the map keeps its first place and last value. *)
Example prompt_map_repeated :
  prompt_map (sample_snapshot
                [sample_prompt "a" "1"; sample_prompt "b" "2"; sample_prompt "a" "3"] [])
  = [(u16 "a", sample_prompt "a" "3"); (u16 "b", sample_prompt "b" "2")].
Proof. reflexivity. Qed.

(** The hypotheses of [enabled_changed_resolution] hold for ["p1"] in the
    two sample snapshots, where both kinds of record are produced. *)
Lemma enabled_changed_resolution_witness :
  exists pA pB eA eB,
    JsMap.get (prompt_map snapshot_one) (u16 "p1") = Some pA /\
    JsMap.get (prompt_map snapshot_two) (u16 "p1") = Some pB /\
    (forall v, resolves_enabled (u16 "p1") (promptOrder snapshot_one) v <-> v = eA) /\
    (forall v, resolves_enabled (u16 "p1") (promptOrder snapshot_two) v <-> v = eB) /\
    ((forall o, In o (promptOrder snapshot_one) -> ~ order_contains o (u16 "p1"))
     -> eA = None) /\
    ((forall o, In o (promptOrder snapshot_two) -> ~ order_contains o (u16 "p1"))
     -> eB = None) /\
    (In (EnabledChanged (u16 "p1") (Prompt.name pA) eA eB)
        (getPromptDifferences (Some snapshot_one) (Some snapshot_two))
     <-> eA <> eB) /\
    (forall n a b,
       In (EnabledChanged (u16 "p1") n a b)
          (getPromptDifferences (Some snapshot_one) (Some snapshot_two)) ->
       n = Prompt.name pA /\ a = eA /\ b = eB) /\
    (In (ContentChanged (u16 "p1") (Prompt.name pA) (Prompt.content pA)
           (Prompt.content pB))
        (getPromptDifferences (Some snapshot_one) (Some snapshot_two))
     <-> Prompt.content pA <> Prompt.content pB).
Proof.
  apply (enabled_changed_resolution snapshot_one snapshot_two (u16 "p1"));
    vm_compute; auto.
Defined.

(** * Further properties *)

(** ** Text diff: equal inputs, exchanged inputs, recovering the text *)

Lemma split_lines_inj a b : split_lines a = split_lines b -> a = b.
Proof.
  intros H. unfold split_lines in H.
  pose proof (split_on_join nl a []) as Ha.
  pose proof (split_on_join nl b []) as Hb.
  rewrite H in Ha. rewrite Ha in Hb. exact Hb.
Qed.

Lemma split_ws_inj a b : split_ws a = split_ws b -> a = b.
Proof.
  intros H. rewrite <- (split_ws_concat a), <- (split_ws_concat b).
  now rewrite H.
Qed.

Lemma Forall_map_seq {A} (P : A -> Prop) (f : nat -> A) n :
  Forall P (map f (seq 0 n)) <-> forall i, i < n -> P (f i).
Proof.
  rewrite Forall_forall. split.
  - intros H i Hi. apply H, in_map, in_seq. lia.
  - intros H x (i & <- & Hi%in_seq)%in_map_iff. apply H. lia.
Qed.

Lemma line_at_A_same linesA linesB i :
  Line.type (line_at_A linesA linesB i) = same <->
  exists a, nth_error linesA i = Some a /\ nth_error linesB i = Some a.
Proof.
  unfold line_at_A.
  destruct (nth_error linesA i) as [a|], (nth_error linesB i) as [b|]; simpl.
  - destruct (str_eqb a b) eqn:Hab; simpl.
    + apply str_eqb_eq in Hab. subst. split; eauto.
    + apply str_eqb_neq in Hab. split; [discriminate|].
      intros (x & [= ->] & [= ->]). contradiction.
  - split; [discriminate | intros (x & _ & H); discriminate].
  - split; [discriminate | intros (x & H & _); discriminate].
  - split; [discriminate | intros (x & H & _); discriminate].
Qed.

Lemma line_at_B_same linesA linesB i :
  Line.type (line_at_B linesA linesB i) = same <->
  exists a, nth_error linesA i = Some a /\ nth_error linesB i = Some a.
Proof.
  unfold line_at_B.
  destruct (nth_error linesA i) as [a|], (nth_error linesB i) as [b|]; simpl.
  - destruct (str_eqb a b) eqn:Hab; simpl.
    + apply str_eqb_eq in Hab. subst. split; eauto.
    + apply str_eqb_neq in Hab. split; [discriminate|].
      intros (x & [= ->] & [= ->]). contradiction.
  - split; [discriminate | intros (x & _ & H); discriminate].
  - split; [discriminate | intros (x & H & _); discriminate].
  - split; [discriminate | intros (x & H & _); discriminate].
Qed.

(** Two lists that agree at every position below the longer length, with a
    value on both sides there, are equal. *)
Lemma positional_agreement {A} (l l' : list A) :
  (forall i, i < Nat.max (length l) (length l') ->
     exists a, nth_error l i = Some a /\ nth_error l' i = Some a) ->
  l = l'.
Proof.
  intros H. apply nth_error_ext. intros i.
  destruct (Nat.lt_ge_cases i (Nat.max (length l) (length l'))) as [Hlt|Hge].
  - destruct (H i Hlt) as (a & -> & ->). reflexivity.
  - transitivity (@None A); [|symmetry]; apply nth_error_None; lia.
Qed.

Lemma computeLineDiff_refl t :
  computeLineDiff t t
  = (map (fun l => Line.mk (Some l) same None) (split_lines t),
     map (fun l => Line.mk (Some l) same None) (split_lines t)).
Proof.
  rewrite computeLineDiff_sides. cbv zeta. rewrite Nat.max_id.
  rewrite <- (map_map Some (fun o => Line.mk o same None)).
  rewrite <- nth_error_seq_map, map_map.
  f_equal; apply map_ext_in; intros i Hi%in_seq;
    unfold line_at_A, line_at_B;
    destruct (nth_error (split_lines t) i) as [a|] eqn:Ha;
    try (apply nth_error_None in Ha; lia);
    now rewrite str_eqb_refl.
Qed.

Lemma all_same_A_iff textA textB :
  Forall (fun r => Line.type r = same) (fst (computeLineDiff textA textB))
  <-> textA = textB.
Proof.
  split.
  - rewrite computeLineDiff_sides. cbv zeta. simpl fst.
    rewrite Forall_map_seq. intros H. apply split_lines_inj.
    apply positional_agreement. intros i Hi.
    now apply line_at_A_same, H.
  - intros ->. rewrite computeLineDiff_refl. simpl. apply Forall_forall.
    intros r (l & <- & _)%in_map_iff. reflexivity.
Qed.

Lemma all_same_B_iff textA textB :
  Forall (fun r => Line.type r = same) (snd (computeLineDiff textA textB))
  <-> textA = textB.
Proof.
  split.
  - rewrite computeLineDiff_sides. cbv zeta. simpl snd.
    rewrite Forall_map_seq. intros H. apply split_lines_inj.
    apply positional_agreement. intros i Hi.
    now apply line_at_B_same, H.
  - intros ->. rewrite computeLineDiff_refl. simpl. apply Forall_forall.
    intros r (l & <- & _)%in_map_iff. reflexivity.
Qed.

(** X1: the line diff marks every position [same] exactly when the two
    texts are equal, on either side; for equal texts both outputs are the
    lines of the text, each tagged [same] and without a word diff. *)
Theorem computeLineDiff_same_iff (textA textB : jsstring) :
  (Forall (fun r => Line.type r = same) (fst (computeLineDiff textA textB))
   <-> textA = textB) /\
  (Forall (fun r => Line.type r = same) (snd (computeLineDiff textA textB))
   <-> textA = textB) /\
  computeLineDiff textA textA
  = (map (fun l => Line.mk (Some l) same None) (split_lines textA),
     map (fun l => Line.mk (Some l) same None) (split_lines textA)).
Proof.
  split; [apply all_same_A_iff|].
  split; [apply all_same_B_iff | apply computeLineDiff_refl].
Qed.

Lemma word_tag_same other x y :
  other <> same ->
  (word_tag other x y = same <-> exists a, x = Some a /\ y = Some a).
Proof.
  intros Ho. unfold word_tag. destruct x as [a|], y as [b|].
  - destruct (str_eqb a b) eqn:Hab.
    + apply str_eqb_eq in Hab. subst. split; eauto.
    + apply str_eqb_neq in Hab. split; [contradiction|].
      intros (c & [= ->] & [= ->]). contradiction.
  - split; [contradiction | intros (c & _ & H); discriminate].
  - split; [contradiction | intros (c & H & _); discriminate].
  - split; [contradiction | intros (c & H & _); discriminate].
Qed.

Lemma word_all_same_eq lineA lineB :
  Forall (fun r => Word.type r = same) (fst (computeWordDiff lineA lineB)) ->
  Forall (fun r => Word.type r = same) (snd (computeWordDiff lineA lineB)) ->
  lineA = lineB.
Proof.
  rewrite computeWordDiff_sides. simpl. rewrite !Forall_map_seq.
  set (wordsA := split_ws lineA). set (wordsB := split_ws lineB).
  intros HA HB. apply split_ws_inj. fold wordsA wordsB.
  apply positional_agreement. intros i Hi.
  destruct (Nat.lt_ge_cases i (length wordsA)) as [Hlt|Hge].
  - specialize (HA i Hlt). unfold word_at_A in HA. simpl in HA.
    now apply word_tag_same in HA.
  - assert (i < length wordsB) as Hlt by lia.
    specialize (HB i Hlt). unfold word_at_B in HB. simpl in HB.
    now apply word_tag_same in HB.
Qed.

(** X2: the word diff marks every token [same] on both sides exactly when
    the two lines are equal. *)
Theorem computeWordDiff_same_iff (lineA lineB : jsstring) :
  Forall (fun r => Word.type r = same) (fst (computeWordDiff lineA lineB)) /\
  Forall (fun r => Word.type r = same) (snd (computeWordDiff lineA lineB))
  <-> lineA = lineB.
Proof.
  split.
  - intros [HA HB]. now apply word_all_same_eq.
  - intros <-. rewrite computeWordDiff_sides. simpl. rewrite !Forall_map_seq.
    split; intros i Hi; unfold word_at_A, word_at_B; simpl;
      (apply word_tag_same; [discriminate|]);
      destruct (nth_error (split_ws lineA) i) as [a|] eqn:Ha; eauto;
      apply nth_error_None in Ha; lia.
Qed.

Lemma str_eqb_sym a b : str_eqb a b = str_eqb b a.
Proof.
  apply eq_true_iff_eq. rewrite !str_eqb_eq. split; congruence.
Qed.

Lemma word_at_flip wordsA wordsB i :
  word_at_A wordsB wordsA i = flip_word (word_at_B wordsA wordsB i) /\
  word_at_B wordsB wordsA i = flip_word (word_at_A wordsA wordsB i).
Proof.
  unfold word_at_A, word_at_B, flip_word, word_tag. simpl.
  destruct (nth_error wordsA i) as [a|], (nth_error wordsB i) as [b|];
    try (split; reflexivity).
  rewrite (str_eqb_sym b a). destruct (str_eqb a b); split; reflexivity.
Qed.

Lemma computeWordDiff_swap lineA lineB :
  computeWordDiff lineB lineA
  = (map flip_word (snd (computeWordDiff lineA lineB)),
     map flip_word (fst (computeWordDiff lineA lineB))).
Proof.
  rewrite !computeWordDiff_sides. simpl. rewrite !map_map.
  f_equal; apply map_ext; intros i; apply word_at_flip.
Qed.

Lemma line_at_flip linesA linesB i :
  i < Nat.max (length linesA) (length linesB) ->
  line_at_A linesB linesA i = flip_line (line_at_B linesA linesB i) /\
  line_at_B linesB linesA i = flip_line (line_at_A linesA linesB i).
Proof.
  intros Hi. unfold line_at_A, line_at_B, flip_line.
  destruct (nth_error linesA i) as [a|] eqn:Ha,
           (nth_error linesB i) as [b|] eqn:Hb; simpl.
  - rewrite (str_eqb_sym b a). destruct (str_eqb a b); simpl;
      [split; reflexivity|].
    rewrite (computeWordDiff_swap a b). simpl. split; reflexivity.
  - split; reflexivity.
  - split; reflexivity.
  - apply nth_error_None in Ha, Hb. lia.
Qed.

(** X3: exchanging the two inputs exchanges the two outputs, of the word
    diff and of the line diff alike, with [added] and [removed] exchanged
    in every record (and in every word record a line carries); [same],
    [changed] and the [empty] placeholders keep their tag. *)
Theorem computeLineDiff_mirror (a b : jsstring) :
  computeWordDiff b a
  = (map flip_word (snd (computeWordDiff a b)),
     map flip_word (fst (computeWordDiff a b))) /\
  computeLineDiff b a
  = (map flip_line (snd (computeLineDiff a b)),
     map flip_line (fst (computeLineDiff a b))).
Proof.
  split; [apply computeWordDiff_swap|].
  rewrite !computeLineDiff_sides. cbv zeta. simpl fst. simpl snd.
  rewrite !map_map.
  rewrite (Nat.max_comm (length (split_lines b))).
  f_equal; apply map_ext_in; intros i Hi%in_seq; apply line_at_flip; lia.
Qed.

(** X4: side A of the word diff holds only [same] and [removed] records,
    side B only [same] and [added] ones, and a position is [same] on one
    side exactly when it is [same] on the other, with the same text. *)
Theorem computeWordDiff_tags (lineA lineB : jsstring) :
  Forall (fun r => Word.type r = same \/ Word.type r = removed)
    (fst (computeWordDiff lineA lineB)) /\
  Forall (fun r => Word.type r = same \/ Word.type r = added)
    (snd (computeWordDiff lineA lineB)) /\
  forall i t,
    nth_error (fst (computeWordDiff lineA lineB)) i = Some (Word.mk t same)
    <-> nth_error (snd (computeWordDiff lineA lineB)) i = Some (Word.mk t same).
Proof.
  rewrite computeWordDiff_sides. simpl.
  set (wordsA := split_ws lineA). set (wordsB := split_ws lineB).
  assert (forall other x y, word_tag other x y = same \/ word_tag other x y = other)
    as Htag.
  { intros other [a|] [b|]; simpl; auto. destruct (str_eqb a b); auto. }
  split; [|split].
  - apply Forall_map_seq. intros i _. apply Htag.
  - apply Forall_map_seq. intros i _. apply Htag.
  - intros i t. rewrite !nth_error_map_seq. unfold word_at_A, word_at_B.
    destruct (Nat.ltb_spec i (length wordsA)) as [HA|HA],
             (Nat.ltb_spec i (length wordsB)) as [HB|HB].
    + split; intros [= <- Hs]; apply word_tag_same in Hs as (a & Ha & Hb);
        try discriminate; rewrite Ha, Hb; simpl; now rewrite str_eqb_refl.
    + apply nth_error_None in HB. rewrite HB.
      split; [|discriminate]. intros H. exfalso. injection H as _ Hs.
      destruct (nth_error wordsA i); discriminate.
    + apply nth_error_None in HA. rewrite HA.
      split; [discriminate|]. intros H. exfalso. injection H as _ Hs.
      destruct (nth_error wordsB i); discriminate.
    + split; discriminate.
Qed.

Lemma filter_all {A} (p : A -> bool) l :
  (forall x, In x l -> p x = true) -> filter p l = l.
Proof.
  induction l as [|x l IH]; intros H; simpl; [reflexivity|].
  rewrite (H x (or_introl eq_refl)). f_equal. apply IH. intros y Hy.
  apply H. now right.
Qed.

Lemma filter_none {A} (p : A -> bool) l :
  (forall x, In x l -> p x = false) -> filter p l = [].
Proof.
  induction l as [|x l IH]; intros H; simpl; [reflexivity|].
  rewrite (H x (or_introl eq_refl)). apply IH. intros y Hy.
  apply H. now right.
Qed.

(** Filtering a positional list whose first [n] positions pass and whose
    other positions fail keeps exactly the first [n]. *)
Lemma filter_map_seq_prefix {A} (p : A -> bool) (f : nat -> A) n m :
  n <= m ->
  (forall i, i < n -> p (f i) = true) ->
  (forall i, n <= i < m -> p (f i) = false) ->
  filter p (map f (seq 0 m)) = map f (seq 0 n).
Proof.
  intros Hle Hyes Hno.
  replace m with (n + (m - n)) by lia.
  rewrite seq_app, map_app, filter_app. simpl.
  rewrite filter_all, filter_none, app_nil_r; [reflexivity| |].
  - intros x (i & <- & Hi%in_seq)%in_map_iff. apply Hno. lia.
  - intros x (i & <- & Hi%in_seq)%in_map_iff. apply Hyes. lia.
Qed.

Lemma map_or_empty_nth (l : list jsstring) (f : nat -> Line.t) :
  (forall i a, nth_error l i = Some a -> Line.text (f i) = Some a) ->
  map (fun r => or_empty (Line.text r)) (map f (seq 0 (length l))) = l.
Proof.
  intros H. rewrite map_map.
  transitivity (map or_empty (map (nth_error l) (seq 0 (length l)))).
  - rewrite map_map. apply map_ext_in. intros i Hi%in_seq.
    destruct (nth_error l i) as [a|] eqn:Ha.
    + now rewrite (H i a Ha).
    + apply nth_error_None in Ha. lia.
  - rewrite nth_error_seq_map, map_map. simpl. apply map_id.
Qed.

(** X5: on each side of the line diff, the records that are not [empty]
    placeholders are the lines of that side's text, in order: their texts
    joined by newlines give the text back.  The placeholders only stand for
    positions past the end of the shorter text. *)
Theorem computeLineDiff_recovers_text (textA textB : jsstring) :
  line_texts (fst (computeLineDiff textA textB)) = split_lines textA /\
  line_texts (snd (computeLineDiff textA textB)) = split_lines textB /\
  join [nl] (line_texts (fst (computeLineDiff textA textB))) = textA /\
  join [nl] (line_texts (snd (computeLineDiff textA textB))) = textB.
Proof.
  assert (line_texts (fst (computeLineDiff textA textB)) = split_lines textA
          /\ line_texts (snd (computeLineDiff textA textB)) = split_lines textB)
    as [HA HB].
  { rewrite computeLineDiff_sides. cbv zeta. simpl fst. simpl snd.
    set (linesA := split_lines textA). set (linesB := split_lines textB).
    unfold line_texts. split.
    - rewrite (filter_map_seq_prefix _ _ (length linesA)); [| lia | |].
      + apply map_or_empty_nth. intros i a Ha. unfold line_at_A. rewrite Ha.
        destruct (nth_error linesB i) as [b|]; [destruct (str_eqb a b)|];
          reflexivity.
      + intros i Hi. unfold line_at_A.
        destruct (nth_error linesA i) as [a|] eqn:Ha.
        * destruct (nth_error linesB i) as [b|]; [destruct (str_eqb a b)|];
            reflexivity.
        * apply nth_error_None in Ha. lia.
      + intros i Hi. unfold line_at_A.
        destruct (nth_error linesA i) as [a|] eqn:Ha; [|reflexivity].
        apply nth_error_Some_lt in Ha. lia.
    - rewrite (filter_map_seq_prefix _ _ (length linesB)); [| lia | |].
      + apply map_or_empty_nth. intros i b Hb. unfold line_at_B. rewrite Hb.
        destruct (nth_error linesA i) as [a|]; [destruct (str_eqb a b)|];
          reflexivity.
      + intros i Hi. unfold line_at_B.
        destruct (nth_error linesB i) as [b|] eqn:Hb.
        * destruct (nth_error linesA i) as [a|]; [destruct (str_eqb a b)|];
            reflexivity.
        * apply nth_error_None in Hb. lia.
      + intros i Hi. unfold line_at_B.
        destruct (nth_error linesB i) as [b|] eqn:Hb.
        * apply nth_error_Some_lt in Hb. lia.
        * destruct (nth_error linesA i) as [a|] eqn:Ha; [reflexivity|].
          apply nth_error_None in Ha. lia. }
  rewrite HA, HB. repeat split.
  - apply (split_on_join nl textA []).
  - apply (split_on_join nl textB []).
Qed.

Lemma or_placeholder_blank v :
  or_placeholder v = u16 "(empty)" <->
  v = None \/ v = Some [] \/ v = Some (u16 "(empty)").
Proof.
  destruct v as [[|c s]|]; simpl.
  - split; auto.
  - split; [intros ->; auto | intros [H|[H|H]]; congruence].
  - split; auto.
Qed.

Lemma or_placeholder_kept v :
  or_placeholder v <> u16 "(empty)" -> v = Some (or_placeholder v).
Proof.
  destruct v as [[|c s]|]; simpl; intros H; try reflexivity; now elim H.
Qed.

(** X6: for two different contents (the only ones a [ContentChanged] record
    carries), the comparison view shows every line as [same] exactly when
    each content is [undefined], the empty string or the literal
    ["(empty)"]: the placeholder substitution hides the difference then,
    and only then. *)
Theorem compare_view_hides_difference (contentA contentB : option jsstring) :
  contentA <> contentB ->
  (Forall (fun r => Line.type r = same) (fst (compare_view contentA contentB))
   <->
   (contentA = None \/ contentA = Some [] \/ contentA = Some (u16 "(empty)")) /\
   (contentB = None \/ contentB = Some [] \/ contentB = Some (u16 "(empty)"))).
Proof.
  intros Hne. unfold compare_view. rewrite all_same_A_iff.
  rewrite <- !or_placeholder_blank. split.
  - intros Heq.
    destruct (list_eq_dec N.eq_dec (or_placeholder contentA) (u16 "(empty)"))
      as [HA|HA].
    + split; [exact HA | now rewrite <- Heq].
    + exfalso. apply Hne.
      rewrite (or_placeholder_kept contentA HA).
      rewrite Heq in HA. rewrite (or_placeholder_kept contentB HA).
      now rewrite Heq.
  - intros [-> ->]. reflexivity.
Qed.

Lemma compare_view_hides_difference_witness :
  Forall (fun r => Line.type r = same)
    (fst (compare_view None (Some (u16 "(empty)"))))
  <->
  (@None jsstring = None \/ @None jsstring = Some []
   \/ None = Some (u16 "(empty)")) /\
  (Some (u16 "(empty)") = None \/ Some (u16 "(empty)") = Some []
   \/ Some (u16 "(empty)") = Some (u16 "(empty)")).
Proof.
  apply (compare_view_hides_difference None (Some (u16 "(empty)"))).
  discriminate.
Defined.

(** ** Structural diff: what counts as a difference *)

Lemma prompt_map_absent s k :
  JsMap.get (prompt_map s) k = None
  <-> ~ In k (map Prompt.identifier (prompts s)).
Proof.
  rewrite JsMapFacts.get_None, prompt_map_keys.
  now rewrite JsMapFacts.In_first_occurrences.
Qed.

Lemma option_string_dec (a b : option jsstring) : {a = b} + {a <> b}.
Proof. decide equality. apply (list_eq_dec N.eq_dec). Qed.

Lemma option_bool_dec (a b : option bool) : {a = b} + {a <> b}.
Proof. decide equality. apply Bool.bool_dec. Qed.

(** X7: the diff of two snapshots is empty exactly when they hold the same
    identifiers and, for every identifier, the compared prompts have equal
    content and the same resolved enabled flag.  Names, roles, marker flags
    and the order of the prompts play no part. *)
Theorem getPromptDifferences_nil_iff (A B : Snapshot) :
  getPromptDifferences (Some A) (Some B) = [] <->
  (forall k, In k (map Prompt.identifier (prompts A))
             <-> In k (map Prompt.identifier (prompts B))) /\
  (forall k pA pB,
     JsMap.get (prompt_map A) k = Some pA ->
     JsMap.get (prompt_map B) k = Some pB ->
     Prompt.content pA = Prompt.content pB /\
     resolve_enabled A k = resolve_enabled B k).
Proof.
  split.
  - intros Hnil.
    assert (forall r, ~ In r (getPromptDifferences (Some A) (Some B))) as Hno
      by (intros r; rewrite Hnil; intros []).
    split.
    + intros k. split; intros Hin.
      * destruct (in_dec (list_eq_dec N.eq_dec) k
                    (map Prompt.identifier (prompts B))) as [|Hout]; [assumption|].
        destruct (prompt_map_present A k Hin) as [pA HpA].
        exfalso. apply (Hno (Removed k (Prompt.name pA))).
        apply In_diff_Removed. exists pA.
        repeat split; auto. now apply prompt_map_absent.
      * destruct (in_dec (list_eq_dec N.eq_dec) k
                    (map Prompt.identifier (prompts A))) as [|Hout]; [assumption|].
        destruct (prompt_map_present B k Hin) as [pB HpB].
        exfalso. apply (Hno (Added k (Prompt.name pB))).
        apply In_diff_Added. exists pB.
        repeat split; auto. now apply prompt_map_absent.
    + intros k pA pB HpA HpB. split.
      * destruct (option_string_dec (Prompt.content pA) (Prompt.content pB))
          as [|Hne]; [assumption|].
        exfalso.
        apply (Hno (ContentChanged k (Prompt.name pA)
                      (Prompt.content pA) (Prompt.content pB))).
        apply In_diff_ContentChanged. exists pA, pB. auto 10.
      * destruct (option_bool_dec (resolve_enabled A k) (resolve_enabled B k))
          as [|Hne]; [assumption|].
        exfalso.
        apply (Hno (EnabledChanged k (Prompt.name pA)
                      (resolve_enabled A k) (resolve_enabled B k))).
        apply In_diff_EnabledChanged. exists pA, pB. auto 10.
  - intros [Hids Hsame].
    destruct (getPromptDifferences (Some A) (Some B)) as [|r l] eqn:Hd;
      [reflexivity|].
    assert (In r (getPromptDifferences (Some A) (Some B))) as Hin
      by (rewrite Hd; left; reflexivity).
    exfalso. destruct r as [i n|i n|i n a b|i n a b].
    + apply In_diff_Removed in Hin as (pA & HA & HB & _).
      apply prompt_map_absent in HB. apply HB, Hids.
      apply JsMapFacts.get_In in HA.
      destruct (JsMap.get (prompt_map A) i) eqn:Hg;
        [|apply prompt_map_entry in HA; congruence].
      destruct (in_dec (list_eq_dec N.eq_dec) i
                  (map Prompt.identifier (prompts A))) as [|Hout]; [assumption|].
      apply prompt_map_absent in Hout. congruence.
    + apply In_diff_Added in Hin as (pB & HB & HA & _).
      apply prompt_map_absent in HA. apply HA, Hids.
      destruct (in_dec (list_eq_dec N.eq_dec) i
                  (map Prompt.identifier (prompts B))) as [|Hout]; [assumption|].
      apply prompt_map_absent in Hout. congruence.
    + apply In_diff_ContentChanged in Hin
        as (pA & pB & HA & HB & _ & -> & -> & Hne).
      now destruct (Hsame i pA pB HA HB).
    + apply In_diff_EnabledChanged in Hin
        as (pA & pB & HA & HB & _ & -> & -> & Hne).
      now destruct (Hsame i pA pB HA HB).
Qed.

(** X8: an identifier is reported [Removed] exactly when it occurs in the
    prompts of A and not in those of B, and [Added] exactly when it occurs
    in those of B and not in those of A. *)
Theorem removed_added_iff (A B : Snapshot) (k : jsstring) :
  ((exists n, In (Removed k n) (getPromptDifferences (Some A) (Some B)))
   <-> In k (map Prompt.identifier (prompts A))
       /\ ~ In k (map Prompt.identifier (prompts B))) /\
  ((exists n, In (Added k n) (getPromptDifferences (Some A) (Some B)))
   <-> In k (map Prompt.identifier (prompts B))
       /\ ~ In k (map Prompt.identifier (prompts A))).
Proof.
  assert (forall s p, JsMap.get (prompt_map s) k = Some p ->
                      In k (map Prompt.identifier (prompts s))) as Hpresent.
  { intros s p Hg.
    destruct (in_dec (list_eq_dec N.eq_dec) k
                (map Prompt.identifier (prompts s))) as [|Hout]; [assumption|].
    apply prompt_map_absent in Hout. congruence. }
  split; split.
  - intros (n & (pA & HA & HB & _)%In_diff_Removed).
    split; [eapply Hpresent; eauto | now apply prompt_map_absent].
  - intros [Hin Hout]. destruct (prompt_map_present A k Hin) as [pA HpA].
    exists (Prompt.name pA). apply In_diff_Removed. exists pA.
    repeat split; auto. now apply prompt_map_absent.
  - intros (n & (pB & HB & HA & _)%In_diff_Added).
    split; [eapply Hpresent; eauto | now apply prompt_map_absent].
  - intros [Hin Hout]. destruct (prompt_map_present B k Hin) as [pB HpB].
    exists (Prompt.name pB). apply In_diff_Added. exists pB.
    repeat split; auto. now apply prompt_map_absent.
Qed.

Lemma fold_set_get {V} (entries : list (jsstring * V)) (m : JsMap.t V) k :
  JsMap.get (fold_left (fun m e => JsMap.set m (fst e) (snd e)) entries m) k
  = match find (fun e => str_eqb (fst e) k) (rev entries) with
    | Some e => Some (snd e)
    | None => JsMap.get m k
    end.
Proof.
  induction entries as [|e entries IH] using rev_ind; [reflexivity|].
  rewrite fold_left_app, rev_app_distr. simpl.
  rewrite JsMapFacts.get_set. destruct (str_eqb (fst e) k); [reflexivity|].
  apply IH.
Qed.

(** X9: when an identifier is repeated in a snapshot, the prompt the diff
    compares is the last one carrying it; an identifier that does not occur
    has no prompt. *)
Theorem prompt_map_last_wins (s : Snapshot) (k : jsstring) :
  JsMap.get (prompt_map s) k
  = find (fun p => str_eqb (Prompt.identifier p) k) (rev (prompts s)).
Proof.
  unfold prompt_map, JsMap.of_entries. rewrite fold_set_get, <- map_rev.
  induction (rev (prompts s)) as [|p l IH]; simpl; [reflexivity|].
  destruct (str_eqb (Prompt.identifier p) k); [reflexivity | exact IH].
Qed.

Lemma fold_set_fresh {V} (entries : list (jsstring * V)) (m : JsMap.t V) :
  NoDup (JsMap.keys m ++ map fst entries) ->
  fold_left (fun m e => JsMap.set m (fst e) (snd e)) entries m = m ++ entries.
Proof.
  revert m; induction entries as [|[k v] entries IH]; intros m Hnd; simpl.
  - now rewrite app_nil_r.
  - assert (JsMap.set m k v = m ++ [(k, v)]) as ->.
    { assert (~ In k (JsMap.keys m)) as Hout.
      { apply NoDup_remove_2 in Hnd. intros Hin. apply Hnd.
        apply in_or_app. now left. }
      clear -Hout. induction m as [|[k' v'] m IHm]; [reflexivity|].
      simpl in *. destruct (str_eqb k' k) eqn:Hk.
      - apply str_eqb_eq in Hk. subst. exfalso. auto.
      - rewrite IHm; auto. }
    rewrite IH, <- app_assoc; [reflexivity|].
    unfold JsMap.keys in *. rewrite map_app, <- app_assoc. exact Hnd.
Qed.

(** X10: when the identifiers of a snapshot are pairwise different, the map
    the diff builds lists the prompts in their own order, each under its
    identifier. *)
Theorem prompt_map_unique (s : Snapshot) :
  NoDup (map Prompt.identifier (prompts s)) ->
  prompt_map s = map (fun p => (Prompt.identifier p, p)) (prompts s).
Proof.
  intros Hnd. unfold prompt_map, JsMap.of_entries.
  rewrite fold_set_fresh; [reflexivity|].
  simpl. now rewrite map_map.
Qed.

Lemma prompt_map_unique_witness :
  prompt_map snapshot_one
  = map (fun p => (Prompt.identifier p, p)) (prompts snapshot_one).
Proof.
  apply (prompt_map_unique snapshot_one).
  repeat constructor; simpl; intuition discriminate.
Defined.

(** ** Prompt viewer and the enabled count *)

Lemma activePrompts_items (s : Snapshot) :
  activePrompts s = flat_map (item_active s) (order_items s).
Proof.
  unfold activePrompts, order_items.
  assert (forall items acc,
            fold_left
              (fun activePrompts item =>
                 match find (fun p => str_eqb (Prompt.identifier p)
                                        (OrderItem.identifier item))
                         (prompts s) with
                 | Some prompt =>
                     if negb (Prompt.marker prompt)
                     then push activePrompts
                            (ActivePrompt.mk prompt (OrderItem.enabled item))
                     else activePrompts
                 | None => activePrompts
                 end) items acc
            = acc ++ flat_map (item_active s) items) as Hinner.
  { induction items as [|item items IH]; intros acc; simpl.
    - now rewrite app_nil_r.
    - rewrite IH. unfold item_active at 2, push.
      destruct (find _ (prompts s)) as [p|]; [destruct (negb _)|]; simpl;
        now rewrite <- ?app_assoc. }
  assert (forall os acc,
            fold_left
              (fun activePrompts orderEntry =>
                 match order orderEntry with
                 | None => activePrompts
                 | Some items =>
                     fold_left
                       (fun activePrompts item =>
                          match find (fun p => str_eqb (Prompt.identifier p)
                                                 (OrderItem.identifier item))
                                  (prompts s) with
                          | Some prompt =>
                              if negb (Prompt.marker prompt)
                              then push activePrompts
                                     (ActivePrompt.mk prompt (OrderItem.enabled item))
                              else activePrompts
                          | None => activePrompts
                          end) items activePrompts
                 end) os acc
            = acc ++ flat_map (item_active s)
                       (flat_map (fun o => match order o with
                                           | Some l => l
                                           | None => []
                                           end) os)) as Houter.
  { induction os as [|o os IH]; intros acc; simpl.
    - now rewrite app_nil_r.
    - rewrite IH. destruct (order o) as [l|]; simpl; [|reflexivity].
      rewrite Hinner, flat_map_app, app_assoc. reflexivity. }
  apply (Houter (promptOrder s) []).
Qed.

Lemma In_order_items s item :
  In item (order_items s) <->
  exists o l, In o (promptOrder s) /\ order o = Some l /\ In item l.
Proof.
  unfold order_items. rewrite in_flat_map. split.
  - intros (o & Ho & Hin). destruct (order o) as [l|] eqn:Hl; [eauto|destruct Hin].
  - intros (o & l & Ho & Hl & Hin). exists o. rewrite Hl. auto.
Qed.

(** X11: every prompt the viewer lists is a prompt of the snapshot that is
    not a marker, namely the first one carrying the identifier of an order
    item, shown with that item's flag; a prompt whose identifier is in no
    order list is never listed; and there are at most as many listed
    prompts as order items. *)
Theorem activePrompts_sound (s : Snapshot) :
  (forall ap, In ap (activePrompts s) ->
     In (ActivePrompt.prompt ap) (prompts s) /\
     Prompt.marker (ActivePrompt.prompt ap) = false /\
     find (fun p => str_eqb (Prompt.identifier p)
                      (Prompt.identifier (ActivePrompt.prompt ap))) (prompts s)
     = Some (ActivePrompt.prompt ap) /\
     exists o l item,
       In o (promptOrder s) /\ order o = Some l /\ In item l /\
       OrderItem.identifier item = Prompt.identifier (ActivePrompt.prompt ap) /\
       OrderItem.enabled item = ActivePrompt.enabled ap) /\
  (forall k,
     (forall o, In o (promptOrder s) -> ~ order_contains o k) ->
     forall ap, In ap (activePrompts s) ->
       Prompt.identifier (ActivePrompt.prompt ap) <> k) /\
  length (activePrompts s) <= length (order_items s).
Proof.
  rewrite activePrompts_items.
  assert (forall ap, In ap (flat_map (item_active s) (order_items s)) ->
            exists item, In item (order_items s) /\
              find (fun p => str_eqb (Prompt.identifier p)
                               (OrderItem.identifier item)) (prompts s)
              = Some (ActivePrompt.prompt ap) /\
              Prompt.marker (ActivePrompt.prompt ap) = false /\
              OrderItem.enabled item = ActivePrompt.enabled ap) as Hin.
  { intros ap (item & Hitem & Hap)%in_flat_map. exists item.
    unfold item_active in Hap.
    destruct (find _ (prompts s)) as [p|] eqn:Hf; [|destruct Hap].
    destruct (Prompt.marker p) eqn:Hm; simpl in Hap; [destruct Hap|].
    destruct Hap as [<-|[]]. simpl. auto. }
  split; [|split].
  - intros ap Hap. destruct (Hin ap Hap) as (item & Hitem & Hf & Hm & He).
    pose proof (find_some _ _ Hf) as [Hp Hid%str_eqb_eq].
    rewrite Hid. repeat split; auto.
    apply In_order_items in Hitem as (o & l & Ho & Hl & Hil).
    exists o, l, item. auto.
  - intros k Hno ap Hap Hk.
    destruct (Hin ap Hap) as (item & Hitem & Hf & _).
    pose proof (find_some _ _ Hf) as [_ Hid%str_eqb_eq].
    apply In_order_items in Hitem as (o & l & Ho & Hl & Hil).
    apply (Hno o Ho). exists l. split; [exact Hl|].
    apply in_map_iff. exists item. split; [congruence | exact Hil].
  - clear Hin. induction (order_items s) as [|item items IH]; simpl; [lia|].
    rewrite length_app. unfold item_active at 1.
    destruct (find _ (prompts s)) as [p|]; [destruct (negb _)|]; simpl; lia.
Qed.

Lemma enabled_count_items (ps : list Prompt.t) (os : list OrderEntry) n :
  fold_left (fun count o => count + enabled_in_order ps o) os n
  = n + length (filter (counted_enabled ps)
                  (flat_map (fun o => match order o with
                                      | Some l => l
                                      | None => []
                                      end) os)).
Proof.
  assert (forall o, enabled_in_order ps o
                    = length (filter (counted_enabled ps)
                                (match order o with
                                 | Some l => l
                                 | None => []
                                 end))) as Hone
    by (intros o; unfold enabled_in_order; destruct (order o); reflexivity).
  revert n; induction os as [|o os IH]; intros n; simpl; [lia|].
  rewrite IH, filter_app, length_app, Hone. lia.
Qed.

Lemma item_active_count (s : Snapshot) (item : OrderItem.t) :
  length (filter ActivePrompt.enabled (item_active s item))
  <= (if counted_enabled (prompts s) item then 1 else 0) /\
  ((exists p, find (fun p => str_eqb (Prompt.identifier p)
                                (OrderItem.identifier item)) (prompts s)
              = Some p) ->
   length (filter ActivePrompt.enabled (item_active s item))
   = if counted_enabled (prompts s) item then 1 else 0).
Proof.
  unfold item_active, counted_enabled.
  destruct (find _ (prompts s)) as [p|].
  - destruct (Prompt.marker p), (OrderItem.enabled item); simpl; auto.
  - split; [destruct (OrderItem.enabled item); simpl; lia|].
    intros [p Hp]. discriminate.
Qed.

Lemma active_enabled_le (s : Snapshot) (items : list OrderItem.t) :
  length (filter ActivePrompt.enabled (flat_map (item_active s) items))
  <= length (filter (counted_enabled (prompts s)) items) /\
  ((forall item, In item items ->
      exists p, find (fun p => str_eqb (Prompt.identifier p)
                                 (OrderItem.identifier item)) (prompts s)
                = Some p) ->
   length (filter ActivePrompt.enabled (flat_map (item_active s) items))
   = length (filter (counted_enabled (prompts s)) items)).
Proof.
  induction items as [|item items [IHle IHeq]]; [split; auto|].
  cbn [flat_map filter]. rewrite filter_app, length_app.
  destruct (item_active_count s item) as [Hle Heq].
  split.
  - destruct (counted_enabled (prompts s) item); simpl; lia.
  - intros Hres. specialize (IHeq (fun i Hi => Hres i (or_intror Hi))).
    specialize (Heq (Hres item (or_introl eq_refl))).
    destruct (counted_enabled (prompts s) item); simpl; lia.
Qed.

(** X12: the enabled count stored at capture is the number of enabled order
    items whose prompt is not a marker, an item that matches no prompt
    being counted too.  The viewer lists only items whose prompt exists, so
    it never shows more prompts as ON than the stored count, and shows
    exactly as many when every order item matches a prompt. *)
Theorem enabledCount_viewer {E : Type} (host : Host E) (w : World E)
    (snap : Snapshot) :
  fst (captureCurrentPromptState host w) = Normal (Some snap) ->
  enabledCount snap
  = length (filter (counted_enabled (prompts snap)) (order_items snap)) /\
  enabledCount snap <= length (order_items snap) /\
  length (filter ActivePrompt.enabled (activePrompts snap)) <= enabledCount snap /\
  ((forall item, In item (order_items snap) ->
      exists p, find (fun p => str_eqb (Prompt.identifier p)
                                 (OrderItem.identifier item)) (prompts snap)
                = Some p) ->
   length (filter ActivePrompt.enabled (activePrompts snap)) = enabledCount snap).
Proof.
  unfold captureCurrentPromptState.
  destruct (serviceSettings w) as [st|]; simpl; [|discriminate].
  intros [= <-]. simpl. rewrite enabled_count_items. simpl.
  rewrite activePrompts_items. unfold order_items. simpl.
  set (items := flat_map _ (Settings.prompt_order st)).
  match goal with |- context [item_active ?s] => set (snap := s) end.
  destruct (active_enabled_le snap items) as [Hle Heq].
  split; [reflexivity|]. split; [apply filter_length_le|].
  split; [exact Hle | exact Heq].
Qed.

(** A live state with a marker, an order item that matches no prompt and a
    disabled item: two items are counted, one prompt is shown as ON. *)
Lemma enabledCount_viewer_witness :
  enabledCount viewer_snapshot
  = length (filter (counted_enabled (prompts viewer_snapshot))
              (order_items viewer_snapshot)) /\
  enabledCount viewer_snapshot <= length (order_items viewer_snapshot) /\
  length (filter ActivePrompt.enabled (activePrompts viewer_snapshot))
  <= enabledCount viewer_snapshot /\
  ((forall item, In item (order_items viewer_snapshot) ->
      exists p, find (fun p => str_eqb (Prompt.identifier p)
                                 (OrderItem.identifier item))
                  (prompts viewer_snapshot)
                = Some p) ->
   length (filter ActivePrompt.enabled (activePrompts viewer_snapshot))
   = enabledCount viewer_snapshot).
Proof.
  apply (enabledCount_viewer working_host viewer_world viewer_snapshot).
  reflexivity.
Defined.

Example enabledCount_viewer_numbers :
  enabledCount viewer_snapshot = 2 /\
  length (filter ActivePrompt.enabled (activePrompts viewer_snapshot)) = 1 /\
  length (activePrompts viewer_snapshot) = 2.
Proof. repeat split. Qed.

(** ** Capture and apply *)

(** X13: applying what was just captured changes neither the service
    settings nor the transcript nor the sink, whether [render] throws or
    not; capturing itself changes nothing; and the apply reports [false]
    exactly when there are no service settings. *)
Theorem capture_apply_roundtrip {E : Type} (host : Host E) (w : World E) :
  exists o,
    captureCurrentPromptState host w = (Normal o, w) /\
    serviceSettings (snd (applyPromptState host o w)) = serviceSettings w /\
    chat (snd (applyPromptState host o w)) = chat w /\
    streaming (snd (applyPromptState host o w)) = streaming w /\
    (fst (applyPromptState host o w) = Normal false
     <-> serviceSettings w = None).
Proof.
  unfold captureCurrentPromptState, applyPromptState.
  destruct (serviceSettings w) as [st|] eqn:Hs.
  - eexists. split; [reflexivity|]. simpl.
    rewrite settings_eta.
    destruct (render host st (ext w)) as [[e|] x]; simpl;
      repeat split; auto; discriminate.
  - exists None. simpl. repeat split; auto.
Qed.

(** X14: with service settings present, applying a snapshot installs its
    two lists before [render] is called: whether the apply returns [true]
    or [render] throws, a capture made afterwards holds the snapshot's
    prompts and order lists, and the apply never reports [false]. *)
Theorem apply_capture_installed {E : Type} (host : Host E) (w : World E)
    (state : Snapshot) :
  serviceSettings w <> None ->
  let r := applyPromptState host (Some state) w in
  fst r <> Normal false /\
  exists snap,
    fst (captureCurrentPromptState host (snd r)) = Normal (Some snap) /\
    prompts snap = prompts state /\
    promptOrder snap = promptOrder state.
Proof.
  intros Hs. unfold applyPromptState, captureCurrentPromptState.
  destruct (serviceSettings w) as [st|]; [clear Hs | now elim Hs].
  destruct (render host _ (ext w)) as [[e|] x]; simpl;
    (split; [discriminate | eexists; repeat split]).
Qed.

Lemma apply_capture_installed_witness :
  let r := applyPromptState failing_host (Some snapshot_two) sample_world in
  fst r <> Normal false /\
  exists snap,
    fst (captureCurrentPromptState failing_host (snd r)) = Normal (Some snap) /\
    prompts snap = prompts snapshot_two /\
    promptOrder snap = promptOrder snapshot_two.
Proof.
  apply (apply_capture_installed failing_host sample_world snapshot_two).
  discriminate.
Defined.

(** ** The test message and the generation call *)

Lemma trim_start_split s :
  exists pre, s = pre ++ trim_start s /\ all_ws pre.
Proof.
  induction s as [|c s (pre & Hs & Hpre)]; simpl.
  - exists []. split; [reflexivity | intros x []].
  - destruct (is_ws c) eqn:Hc.
    + exists (c :: pre). split; [simpl; now f_equal|].
      intros x [<-|Hx]; auto.
    + exists []. split; [reflexivity | intros x []].
Qed.

Lemma trim_start_head s :
  trim_start s = [] \/ exists c r, trim_start s = c :: r /\ is_ws c = false.
Proof.
  induction s as [|c s IH]; simpl; [now left|].
  destruct (is_ws c) eqn:Hc; [exact IH | right; eauto].
Qed.

Lemma trim_start_fixed c r : is_ws c = false -> trim_start (c :: r) = c :: r.
Proof. intros Hc. simpl. now rewrite Hc. Qed.

Lemma trim_idempotent s : trim (trim s) = trim s.
Proof.
  unfold trim at 2 3.
  destruct (trim_start_head s) as [Hu|(c & r & Hu & Hc)].
  - rewrite Hu. reflexivity.
  - destruct (trim_start_split (rev (trim_start s))) as (pre & Hrev & _).
    destruct (trim_start_head (rev (trim_start s))) as [Hv|(d & v & Hv & Hd)].
    + rewrite Hv. reflexivity.
    + rewrite Hv in *.
      assert (trim_start s = rev (d :: v) ++ rev pre) as Hsplit.
      { rewrite <- rev_app_distr, <- Hrev, rev_involutive. reflexivity. }
      assert (exists t, rev (d :: v) = c :: t) as [t Ht].
      { rewrite Hu in Hsplit. destruct (rev (d :: v)) as [|y t] eqn:Hr.
        - apply (f_equal (@length _)) in Hr. rewrite length_rev in Hr.
          discriminate.
        - injection Hsplit as -> _. eauto. }
      unfold trim. rewrite Ht, (trim_start_fixed c t Hc), <- Ht.
      rewrite rev_involutive, (trim_start_fixed d v Hd). reflexivity.
Qed.

Lemma truthy_trim m : truthy m && truthy (trim m) = truthy (trim m).
Proof. destruct m; [reflexivity | simpl; reflexivity]. Qed.

(** X15: the test message counts only up to the whitespace around it: a
    message and its trimmed form give the same run, and a message that is
    blank after trimming gives the same run as no message at all. *)
Theorem generateWithState_trims {E : Type} (host : Host E)
    (state : option Snapshot) (m : jsstring) (w : World E) :
  generateWithState host state (Some m) w
  = generateWithState host state (Some (trim m)) w /\
  (trim m = [] ->
   generateWithState host state (Some m) w
   = generateWithState host state None w).
Proof.
  unfold generateWithState, try_block. split.
  - rewrite (truthy_trim m), (truthy_trim (trim m)), !trim_idempotent.
    reflexivity.
  - intros Hblank. rewrite (truthy_trim m), Hblank. reflexivity.
Qed.

Lemma generateWithState_trims_witness :
  generateWithState working_host (Some snapshot_two) (Some (u16 "   ")) sample_world
  = generateWithState working_host (Some snapshot_two) None sample_world.
Proof.
  apply (generateWithState_trims working_host (Some snapshot_two) (u16 "   ")
           sample_world).
  reflexivity.
Defined.

Lemma last_cons {A} (l : list A) x d : last (x :: l) d = last l x.
Proof.
  revert x d; induction l as [|y l IH]; intros x d; [reflexivity|].
  change (last (x :: y :: l) d) with (last (y :: l) d).
  now rewrite !IH.
Qed.

Lemma fold_callback (partials : list jsstring) fullText text :
  fold_left callback partials (fullText, Some text)
  = (last partials fullText, Some (last partials text)).
Proof.
  revert fullText text; induction partials as [|p l IH]; intros ft tx;
    [reflexivity|].
  simpl fold_left. rewrite IH, !last_cons. reflexivity.
Qed.

(** X16: when the service settings are present and the first [render]
    succeeds, the generation is called on the snapshot's two lists and on
    the transcript extended by the trimmed test message (unextended when
    the message is absent or blank).  The call then yields the resolved
    text when that is a non-empty string, the last partial text otherwise;
    when the generation rejects, the error string of the rejected value,
    or the engine's [TypeError] when that value is [null] or [undefined];
    and in every case the error of the restoring [render] when that one
    throws. *)
Theorem generateWithState_generation {E : Type} (host : Host E)
    (state : Snapshot) (testMessage : option jsstring) (w : World E)
    (live : Settings.t) (x1 : E) :
  serviceSettings w = Some live ->
  render host (Settings.mk (prompts state) (promptOrder state)) (ext w)
  = (None, x1) ->
  let transcript :=
    match testMessage with
    | Some m =>
        if truthy (trim m)
        then push (chat w)
               (ChatMessage.mk (name1 host x1) true (trim m) (now host x1))
        else chat w
    | None => chat w
    end in
  let g := generate host
             (Some (Settings.mk (prompts state) (promptOrder state)))
             transcript x1 in
  fst (generateWithState host (Some state) testMessage w)
  = match fst (render host live (ext_after g)) with
    | Some e => Thrown e
    | None =>
        match settled g with
        | inl Nullish => Thrown (nullish_property_error host)
        | inl (Value message) =>
            Normal (u16 "Error: " ++ template_text message)
        | inr r =>
            Normal (if truthy (or_empty r) then or_empty r
                    else last (partial_texts g) [])
        end
    end.
Proof.
  intros Hs Hr. cbv zeta.
  unfold generateWithState, bind, gets, try_catch_finally, try_block,
    finally_block, catch_block, bind, modify, ret, await_generate,
    captureCurrentPromptState, applyPromptState.
  repeat first
    [ rewrite Hs | rewrite Hr
    | progress cbn [fst snd serviceSettings chat streaming ext prompts
                    promptOrder] ].
  rewrite settings_eta.
  destruct testMessage as [m|];
    [rewrite (truthy_trim m); destruct (truthy (trim m))|];
    repeat first
      [ rewrite Hs | rewrite Hr | rewrite fold_callback
      | progress cbn [fst snd serviceSettings chat streaming ext] ];
    match goal with |- context [settled ?g] =>
      destruct (settled g) as [[|msg]|[r|]] end;
    repeat first
      [ rewrite Hs | rewrite Hr
      | progress cbn [fst snd serviceSettings chat streaming ext or_empty
                      error_string] ];
    match goal with |- context [render host live ?x] =>
      destruct (render host live x) as [[e'|] x2] end;
    cbn [fst snd]; try reflexivity;
    destruct (truthy r); reflexivity.
Qed.

Lemma generateWithState_generation_witness :
  fst (generateWithState working_host (Some snapshot_two)
         (Some (u16 " test ")) sample_world)
  = Normal (u16 "reply").
Proof.
  apply (generateWithState_generation working_host snapshot_two
           (Some (u16 " test ")) sample_world
           (Settings.mk [sample_prompt "p1" "Hello"] []) tt);
    reflexivity.
Defined.

(** X17: without service settings the snapshot is never applied: the run
    is the same whatever snapshot is passed, even none.  It then raises to
    its caller exactly when the [try] block fails with [null] or
    [undefined], the error being the engine's [TypeError] from the [catch]
    block; every other run returns a text. *)
Theorem generateWithState_unavailable {E : Type} (host : Host E)
    (state : option Snapshot) (testMessage : option jsstring) (w : World E) :
  serviceSettings w = None ->
  generateWithState host state testMessage w
  = generateWithState host None testMessage w /\
  match fst (generateWithState host state testMessage w) with
  | Normal _ => fst (try_block host state testMessage w) <> Thrown Nullish
  | Thrown e =>
      e = nullish_property_error host /\
      fst (try_block host state testMessage w) = Thrown Nullish
  end.
Proof.
  intros Hs. split.
  - assert (forall st, applyPromptState host st w = (Normal false, w)) as Happly.
    { intros st. unfold applyPromptState. rewrite Hs. reflexivity. }
    unfold generateWithState, bind, gets, try_catch_finally, try_block,
      finally_block, bind, modify, ret, await_generate,
      captureCurrentPromptState.
    rewrite Hs, !Happly. reflexivity.
  - pose proof (eq_refl (fst (try_block host state testMessage w))) as Htry.
    revert Htry.
    generalize (fst (try_block host state testMessage w)) at 1 3 4.
    intros c Htry. open_call host state testMessage w. subst c.
    rewrite Hs in Hbase. injection Hbase as ->.
    assert (serviceSettings w1 = None) as Hs1 by now apply Hav.
    rewrite Hs1 in Hfin. destruct Hfin as (_ & _ & ->).
    unfold caught. destruct c1 as [text|[|m]]; simpl;
      [discriminate | split; reflexivity | discriminate].
Qed.

Lemma generateWithState_unavailable_witness :
  generateWithState nullish_host (Some snapshot_one) None
    (mkWorld None [] None tt)
  = generateWithState nullish_host None None (mkWorld None [] None tt) /\
  match fst (generateWithState nullish_host (Some snapshot_one) None
               (mkWorld None [] None tt)) with
  | Normal _ =>
      fst (try_block nullish_host (Some snapshot_one) None
             (mkWorld None [] None tt)) <> Thrown Nullish
  | Thrown e =>
      e = nullish_property_error nullish_host /\
      fst (try_block nullish_host (Some snapshot_one) None
             (mkWorld None [] None tt)) = Thrown Nullish
  end.
Proof.
  apply (generateWithState_unavailable nullish_host (Some snapshot_one) None
           (mkWorld None [] None tt)).
  reflexivity.
Defined.

(** X18: when the [try] block completes, the sink shows exactly the text
    that [generateWithState] returns or would have returned: the restoring
    steps never write to the sink. *)
Theorem generateWithState_sink {E : Type} (host : Host E)
    (state : option Snapshot) (testMessage : option jsstring) (w : World E)
    (text : jsstring) :
  fst (try_block host state testMessage w) = Normal text ->
  streaming (snd (generateWithState host state testMessage w)) = Some text.
Proof.
  unfold generateWithState, bind, gets, try_catch_finally, try_block,
    finally_block, catch_block, bind, modify, ret, await_generate,
    captureCurrentPromptState, applyPromptState.
  destruct w as [ss ch st x]. cbn [serviceSettings chat streaming ext].
  destruct ss as [live|], state as [snap|];
    cbn [fst snd serviceSettings chat streaming ext];
    try (destruct (render host _ x) as [[e|] x1];
         cbn [fst snd serviceSettings chat streaming ext];
         [discriminate|]);
    (destruct testMessage as [m|];
       [destruct (truthy m && truthy (trim m))|]);
    cbn [fst snd serviceSettings chat streaming ext];
    rewrite fold_callback;
    match goal with |- context [settled ?g] => destruct (settled g) as [e|r] end;
    cbn [fst snd serviceSettings chat streaming ext];
    try discriminate;
    intros [= <-];
    try match goal with |- context [render host ?s ?y] =>
          destruct (render host s y) as [[e'|] x2] end;
    reflexivity.
Qed.

Lemma generateWithState_sink_witness :
  streaming (snd (generateWithState working_host (Some snapshot_two)
                    (Some (u16 "hello")) sample_world))
  = Some (u16 "reply").
Proof.
  apply (generateWithState_sink working_host (Some snapshot_two)
           (Some (u16 "hello")) sample_world (u16 "reply")).
  reflexivity.
Defined.

(** ** Slot selection *)

Lemma getPromptDifferences_same_snapshot (s : Snapshot) :
  getPromptDifferences (Some s) (Some s) = [].
Proof.
  destruct (getPromptDifferences (Some s) (Some s)) as [|r l] eqn:Hd;
    [reflexivity|].
  assert (In r (getPromptDifferences (Some s) (Some s))) as Hin
    by (rewrite Hd; left; reflexivity).
  exfalso. destruct r as [i n|i n|i n a b|i n a b].
  - apply In_diff_Removed in Hin as (p & H1 & H2 & _). congruence.
  - apply In_diff_Added in Hin as (p & H1 & H2 & _). congruence.
  - apply In_diff_ContentChanged in Hin
      as (p & p' & H1 & H2 & _ & -> & -> & Hne). congruence.
  - apply In_diff_EnabledChanged in Hin
      as (p & p' & _ & _ & _ & -> & -> & Hne). congruence.
Qed.

(** X19: a selection by an id that no stored snapshot carries, or by an
    unparsable id, changes nothing; a successful one always leaves slot A
    occupied by a stored snapshot carrying an id.  Selecting the same
    stored snapshot twice from empty slots puts it in both slots, and the
    diff display then holds no difference. *)
Theorem select_snapshot_slots (currentSnapshots : list Snapshot)
    (parsed : option N) (slots : Slots) :
  (find (fun s => id_matches (id s) parsed) currentSnapshots = None ->
   select_snapshot currentSnapshots parsed slots = slots) /\
  (select_snapshot currentSnapshots None slots = slots) /\
  (forall s,
     find (fun s => id_matches (id s) parsed) currentSnapshots = Some s ->
     In s currentSnapshots /\ id s = parsed /\ parsed <> None /\
     selectedSlotA (select_snapshot currentSnapshots parsed slots) <> None /\
     let twice :=
       select_snapshot currentSnapshots parsed
         (select_snapshot currentSnapshots parsed (mkSlots None None)) in
     twice = mkSlots (Some s) (Some s) /\
     forall shown, updateDiffDisplay true twice shown = []).
Proof.
  split; [|split].
  - intros Hf. unfold select_snapshot. now rewrite Hf.
  - unfold select_snapshot.
    assert (find (fun s => id_matches (id s) None) currentSnapshots = None) as ->;
      [|reflexivity].
    induction currentSnapshots as [|s l IH]; simpl; [reflexivity|].
    destruct (id s); simpl; exact IH.
  - intros s Hf. pose proof (find_some _ _ Hf) as [Hin Hid].
    assert (id s = parsed /\ parsed <> None) as [Hs Hp].
    { unfold id_matches in Hid. destruct (id s) as [a|], parsed as [b|];
        try discriminate.
      apply N.eqb_eq in Hid. subst. split; [reflexivity | discriminate]. }
    split; [exact Hin|]. split; [exact Hs|]. split; [exact Hp|].
    unfold select_snapshot. rewrite Hf. cbn [selectedSlotA selectedSlotB].
    split.
    + destruct (selectedSlotA slots), (selectedSlotB slots); discriminate.
    + split; [reflexivity|]. intros shown. unfold updateDiffDisplay. simpl.
      apply getPromptDifferences_same_snapshot.
Qed.

(** Three selections in a row: A, then B, then A again with B cleared. *)
Example select_snapshot_cycle :
  let s1 := mkSnapshot (Some 1%N) [] [] [] 0 0%N [] in
  let s2 := mkSnapshot (Some 2%N) [] [] [] 0 0%N [] in
  let stored := [s1; s2] in
  let one := select_snapshot stored (Some 1%N) (mkSlots None None) in
  let two := select_snapshot stored (Some 2%N) one in
  let three := select_snapshot stored (Some 2%N) two in
  one = mkSlots (Some s1) None /\
  two = mkSlots (Some s1) (Some s2) /\
  three = mkSlots (Some s2) None.
Proof. repeat split. Qed.

(** ** Line records and their word diffs *)

(** X20: a line record carries a word diff exactly when it is tagged
    [changed], on either side; and the word diff of a [changed] line on
    side A together with the one at the same position on side B always
    holds a record that is not [same]. *)
Theorem changed_lines_word_diff (textA textB : jsstring) :
  Forall (fun r => Line.type r = changed <-> Line.wordDiff r <> None)
    (fst (computeLineDiff textA textB)) /\
  Forall (fun r => Line.type r = changed <-> Line.wordDiff r <> None)
    (snd (computeLineDiff textA textB)) /\
  forall i tA wA tB wB,
    nth_error (fst (computeLineDiff textA textB)) i
    = Some (Line.mk tA changed (Some wA)) ->
    nth_error (snd (computeLineDiff textA textB)) i
    = Some (Line.mk tB changed (Some wB)) ->
    ~ (Forall (fun r => Word.type r = same) wA /\
       Forall (fun r => Word.type r = same) wB).
Proof.
  rewrite computeLineDiff_sides. cbv zeta. simpl fst. simpl snd.
  set (linesA := split_lines textA). set (linesB := split_lines textB).
  split; [|split].
  - apply Forall_map_seq. intros i _. unfold line_at_A.
    destruct (nth_error linesA i) as [a|], (nth_error linesB i) as [b|];
      try destruct (str_eqb a b); simpl; split; congruence.
  - apply Forall_map_seq. intros i _. unfold line_at_B.
    destruct (nth_error linesA i) as [a|], (nth_error linesB i) as [b|];
      try destruct (str_eqb a b); simpl; split; congruence.
  - intros i tA wA tB wB. rewrite !nth_error_map_seq.
    destruct (i <? _); [|discriminate].
    unfold line_at_A, line_at_B.
    destruct (nth_error linesA i) as [a|], (nth_error linesB i) as [b|];
      try discriminate.
    destruct (str_eqb a b) eqn:Hab; [discriminate|].
    intros [= _ <-] [= _ <-] [HA HB].
    apply str_eqb_neq in Hab. apply Hab. now apply word_all_same_eq.
Qed.

(** ** A run as the diff sees it *)

Lemma generateWithState_world {E : Type} (host : Host E)
    (state : option Snapshot) (testMessage : option jsstring) (w : World E) :
  chat (snd (generateWithState host state testMessage w)) = chat w /\
  serviceSettings (snd (generateWithState host state testMessage w))
  = serviceSettings w.
Proof.
  open_call host state testMessage w.
  destruct Hfin as [Hchat Hset]. split; [exact Hchat|].
  destruct (serviceSettings w) as [s|] eqn:Hs.
  - destruct Hbase as (snap & [= ->] & Hp & Ho).
    destruct (serviceSettings w1) as [s1|] eqn:Hs1.
    + destruct Hset as [-> _]. now rewrite Hp, Ho, settings_eta.
    + destruct Hav as [Hav _]. specialize (Hav eq_refl). discriminate.
  - injection Hbase as ->.
    assert (serviceSettings w1 = None) as Hs1 by now apply Hav.
    rewrite Hs1 in Hset. now destruct Hset as [-> _].
Qed.

Lemma getPromptDifferences_same_lists (s s' : Snapshot) :
  prompts s' = prompts s -> promptOrder s' = promptOrder s ->
  getPromptDifferences (Some s) (Some s') = [].
Proof.
  intros Hp Ho. rewrite <- (getPromptDifferences_same_snapshot s).
  unfold getPromptDifferences, compare_entry. rewrite Hp, Ho. reflexivity.
Qed.

(** X21: a run of [generateWithState] leaves no trace the diff can see: a
    snapshot captured after the run, whatever its outcome, holds the same
    prompts and order lists as one captured before it, and the diff of the
    two is empty. *)
Theorem generateWithState_no_difference {E : Type} (host : Host E)
    (state : option Snapshot) (testMessage : option jsstring) (w : World E)
    (before : Snapshot) :
  fst (captureCurrentPromptState host w) = Normal (Some before) ->
  exists after,
    fst (captureCurrentPromptState host
           (snd (generateWithState host state testMessage w)))
    = Normal (Some after) /\
    prompts after = prompts before /\
    promptOrder after = promptOrder before /\
    getPromptDifferences (Some before) (Some after) = [].
Proof.
  intros Hb.
  destruct (generateWithState_world host state testMessage w) as [_ Hset].
  destruct (captureCurrentPromptState_spec host w) as [_ Hw].
  destruct (captureCurrentPromptState_spec host
              (snd (generateWithState host state testMessage w))) as [_ Hw'].
  rewrite Hset in Hw'.
  destruct (serviceSettings w) as [st|].
  - destruct Hw as (b & Hb' & Hp & Ho). rewrite Hb in Hb'.
    injection Hb' as <-.
    destruct Hw' as (a & Ha & Hp' & Ho'). exists a.
    assert (prompts a = prompts before) as Hpa by congruence.
    assert (promptOrder a = promptOrder before) as Hoa by congruence.
    repeat split; auto. now apply getPromptDifferences_same_lists.
  - rewrite Hb in Hw. discriminate.
Qed.

Lemma generateWithState_no_difference_witness :
  exists after,
    fst (captureCurrentPromptState failing_host
           (snd (generateWithState failing_host (Some snapshot_two)
                   (Some (u16 "test")) sample_world)))
    = Normal (Some after) /\
    prompts after = [sample_prompt "p1" "Hello"] /\
    promptOrder after = [] /\
    getPromptDifferences
      (Some (mkSnapshot None [sample_prompt "p1" "Hello"] []
               (u16 "Unknown Preset") 0 0%N (u16 "[Unknown Preset] ")))
      (Some after) = [].
Proof.
  apply (generateWithState_no_difference failing_host (Some snapshot_two)
           (Some (u16 "test")) sample_world
           (mkSnapshot None [sample_prompt "p1" "Hello"] []
              (u16 "Unknown Preset") 0 0%N (u16 "[Unknown Preset] "))).
  reflexivity.
Defined.

(** A generation that rejects with [undefined]: the [catch] block throws the
    engine's [TypeError], which reaches the caller once the [finally] block
    has restored the transcript and the settings. *)
Example generateWithState_nullish_rejection :
  generateWithState nullish_host (Some snapshot_two) (Some (u16 "test"))
    sample_world
  = (Thrown type_error,
     mkWorld (serviceSettings sample_world) (chat sample_world) (Some []) tt).
Proof. reflexivity. Qed.

(** A rejected value without a [message] property prints as [undefined]. *)
Example error_string_examples :
  error_string (Value None) = Some (u16 "Error: undefined") /\
  error_string (Value (Some (u16 "boom"))) = Some (u16 "Error: boom") /\
  error_string Nullish = None.
Proof. repeat split. Qed.
